(** * grr_colab/vfs.py: the buffered VFS file object and the directory walker

    A shallow embedding of [VfsFile] (a seekable, buffered, read-only file
    object over a chunk generator obtained from [fetch(offset)]) and of
    [VFS.ls] (the depth-bounded recursive directory listing), followed by the
    properties established about them. *)

From Stdlib Require Import ZArith List Lia Bool String.
Import ListNotations.
Open Scope Z_scope.

(** ** Python sequences *)

Module Py.

Definition len {A : Type} (l : list A) : Z := Z.of_nat (List.length l).

(** One bound of a slice [l[i:j]]: a negative index counts from the end,
    and the result is clamped to [0, len l]. *)
Definition slice_index (n i : Z) : Z :=
  if i <? 0 then Z.max 0 (i + n) else Z.min i n.

(** [l[i:j]] with both bounds given and step 1. *)
Definition slice {A : Type} (l : list A) (i j : Z) : list A :=
  let lo := slice_index (len l) i in
  let hi := slice_index (len l) j in
  firstn (Z.to_nat (hi - lo)) (skipn (Z.to_nat lo) l).

(** [b[:k] = data] on a bytearray: the slice [b[0:k]] is replaced by
    [data], whatever the two lengths are. *)
Definition assign_prefix {A : Type} (b : list A) (k : Z) (data : list A)
  : list A :=
  data ++ skipn (Z.to_nat (slice_index (len b) k)) b.

End Py.

(** ** VfsFile *)

Module VfsFile.

Import Py.

Definition bytes : Type := list Byte.byte.

(** The exceptions the class raises.  [ValueError] is raised by
    [_ensure_not_closed] only; [UnsupportedOperation] carries the rejected
    whence value of [seek]. *)
Inductive exn : Type :=
| ValueError (msg : string)
| UnsupportedOperation (whence : Z).

Definition ClosedError : exn := ValueError "File has already been closed.".

(** What a call yields: a value, an exception, or (for the [while] loop of
    [read], which is run on a budget of iterations) an exhausted budget. *)
Inductive outcome (A : Type) : Type :=
| Ok (a : A)
| Raise (e : exn)
| OutOfFuel.
Arguments Ok {A} a.
Arguments Raise {A} e.
Arguments OutOfFuel {A}.

Definition bind {A B : Type} (m : outcome A) (k : A -> outcome B)
  : outcome B :=
  match m with
  | Ok a => k a
  | Raise e => Raise e
  | OutOfFuel => OutOfFuel
  end.

Notation "x <- m ;; k" := (bind m (fun x => k))
  (at level 61, m at next level, right associativity).
Notation "' p <- m ;; k" := (bind m (fun x => let p := x in k))
  (at level 61, p pattern, m at next level, right associativity).

(** The instance attributes.  [_data] is the generator returned by the
    last [fetch] call, as the list of chunks it has yet to yield.  The two
    last fields are ghost counters: the offsets [fetch] has been called
    with (oldest first) and the number of [next(self._data)] calls. *)
Record t : Type := mk {
  _data : list bytes;
  _buffer : bytes;
  _buffer_pos : Z;
  _pos : Z;
  _eof : bool;
  _closed : bool;
  fetch_calls : list Z;
  next_calls : nat
}.

Definition SEEK_SET : Z := 0.
Definition SEEK_CUR : Z := 1.

Section WithFetch.

(** [self._fetch]: set once by the constructor.  A call returns a fresh
    generator, a finite sequence of chunks. *)
Variable fetch : Z -> list bytes.

Definition __init__ : t :=
  {| _data := fetch 0;
     _buffer := [];
     _buffer_pos := 0;
     _pos := 0;
     _eof := false;
     _closed := false;
     fetch_calls := [0];
     next_calls := 0 |}.

Definition closed (self : t) : bool := _closed self.

Definition _ensure_not_closed (self : t) : outcome unit :=
  if closed self then Raise ClosedError else Ok tt.

Definition _load_buffer (self : t) : t :=
  if _eof self then self
  else
    match _data self with
    | chunk :: rest =>
        {| _data := rest;
           _buffer := chunk;
           _buffer_pos := 0;
           _pos := _pos self;
           _eof := _eof self;
           _closed := _closed self;
           fetch_calls := fetch_calls self;
           next_calls := S (next_calls self) |}
    | [] =>
        {| _data := [];
           _buffer := [];
           _buffer_pos := 0;
           _pos := _pos self;
           _eof := true;
           _closed := _closed self;
           fetch_calls := fetch_calls self;
           next_calls := S (next_calls self) |}
    end.

Definition _is_buffer_empty (self : t) : bool :=
  _buffer_pos self =? len (_buffer self).

Definition _read_from_buffer (size : Z) (self : t) : bytes * t :=
  let self := if _is_buffer_empty self then _load_buffer self else self in
  let available := len (_buffer self) - _buffer_pos self in
  let size := Z.min size available in
  let size := if size <? 0 then available else size in
  let self :=
    {| _data := _data self;
       _buffer := _buffer self;
       _buffer_pos := _buffer_pos self + size;
       _pos := _pos self + size;
       _eof := _eof self;
       _closed := _closed self;
       fetch_calls := fetch_calls self;
       next_calls := next_calls self |} in
  (slice (_buffer self) (_buffer_pos self - size) (_buffer_pos self), self).

Definition close (self : t) : outcome (unit * t) :=
  Ok (tt,
      {| _data := _data self;
         _buffer := _buffer self;
         _buffer_pos := _buffer_pos self;
         _pos := _pos self;
         _eof := _eof self;
         _closed := true;
         fetch_calls := fetch_calls self;
         next_calls := next_calls self |}).

Definition tell (self : t) : outcome Z :=
  _ <- _ensure_not_closed self ;;
  Ok (_pos self).

Definition seek (offset whence : Z) (self : t) : outcome (Z * t) :=
  _ <- _ensure_not_closed self ;;
  new_pos <-
    (if whence =? SEEK_SET then Ok offset
     else if whence =? SEEK_CUR then
            cur <- tell self ;; Ok (cur + offset)
          else Raise (UnsupportedOperation whence)) ;;
  let buffer_start_pos := _pos self - _buffer_pos self in
  let self :=
    if (buffer_start_pos <=? new_pos)
       && (new_pos <=? buffer_start_pos + len (_buffer self))
    then
      {| _data := _data self;
         _buffer := _buffer self;
         _buffer_pos := _buffer_pos self + (new_pos - _pos self);
         _pos := new_pos;
         _eof := false;
         _closed := _closed self;
         fetch_calls := fetch_calls self;
         next_calls := next_calls self |}
    else
      {| _data := fetch new_pos;
         _buffer := [];
         _buffer_pos := 0;
         _pos := new_pos;
         _eof := false;
         _closed := _closed self;
         fetch_calls := fetch_calls self ++ [new_pos];
         next_calls := next_calls self |} in
  pos <- tell self ;;
  Ok (pos, self).

(** The loop of [read]:
    [while not self._eof and (size < 0 or len(data) < size)]. *)
Fixpoint read_loop (fuel : nat) (size : Z) (data : bytes) (self : t)
  : outcome (bytes * t) :=
  if negb (_eof self) && ((size <? 0) || (len data <? size)) then
    match fuel with
    | O => OutOfFuel
    | S fuel' =>
        let '(chunk, self) := _read_from_buffer (size - len data) self in
        read_loop fuel' size (data ++ chunk) self
    end
  else Ok (data, self).

(** The budget [read] gives its loop: one iteration for what is left in
    the buffer, one per chunk the generator still holds and one for the
    StopIteration. *)
Definition read_fuel (self : t) : nat := S (S (List.length (_data self))).

Definition read (size : Z) (self : t) : outcome (bytes * t) :=
  _ <- _ensure_not_closed self ;;
  let size := if size =? 0 then -1 else size in
  read_loop (read_fuel self) size [] self.

Definition read1 (size : Z) (self : t) : outcome (bytes * t) :=
  _ <- _ensure_not_closed self ;;
  let has_data := negb (_is_buffer_empty self) in
  let '(data, self) := _read_from_buffer size self in
  if has_data && ((size <? 0) || (len data <? size)) then
    let '(more, self) := _read_from_buffer (size - len data) self in
    Ok (data ++ more, self)
  else Ok (data, self).

(** [readinto1(b)] returns the count; the bytearray [b] it fills is
    returned next to it. *)
Definition readinto1 (b : bytes) (self : t) : outcome ((Z * bytes) * t) :=
  _ <- _ensure_not_closed self ;;
  '(data, self) <- read1 (len b) self ;;
  Ok ((len data, assign_prefix b (len data) data), self).

End WithFetch.

(** *** The calls of a client, as one step function *)

Inductive op : Type :=
| Read (size : Z)
| Read1 (size : Z)
| Readinto1 (b : bytes)
| Seek (offset whence : Z)
| Tell
| Close.

(** The object after a call that returned. *)
Definition step (fetch : Z -> list bytes) (o : op) (self : t) : outcome t :=
  match o with
  | Read size => '(_, self) <- read size self ;; Ok self
  | Read1 size => '(_, self) <- read1 size self ;; Ok self
  | Readinto1 b => '(_, self) <- readinto1 b self ;; Ok self
  | Seek offset whence => '(_, self) <- seek fetch offset whence self ;; Ok self
  | Tell => _ <- tell self ;; Ok self
  | Close => '(_, self) <- close self ;; Ok self
  end.

(** The objects a client can hold: a new one, and what calls that
    returned make of it. *)
Inductive reachable (fetch : Z -> list bytes) : t -> Prop :=
| reachable_init : reachable fetch (__init__ fetch)
| reachable_step (o : op) (self self' : t) :
    reachable fetch self ->
    step fetch o self = Ok self' ->
    reachable fetch self'.

(** A sequence of calls, each of which returns. *)
Fixpoint run (fetch : Z -> list bytes) (os : list op) (self : t) : outcome t :=
  match os with
  | [] => Ok self
  | o :: os' => self <- step fetch o self ;; run fetch os' self
  end.

(** The calls that are not reads. *)
Definition reads_nothing (o : op) : bool :=
  match o with
  | Seek _ _ | Tell | Close => true
  | Read _ | Read1 _ | Readinto1 _ => false
  end.

(** [f = VfsFile(fetch); return f.read(n) + f.read(m)] *)
Definition read_then_read (fetch : Z -> list bytes) (n m : Z)
  : outcome bytes :=
  '(first, self) <- read n (__init__ fetch) ;;
  '(second, _) <- read m self ;;
  Ok (first ++ second).

(** [return VfsFile(fetch).read(n)] *)
Definition read_once (fetch : Z -> list bytes) (n : Z) : outcome bytes :=
  '(data, _) <- read n (__init__ fetch) ;;
  Ok data.

(** The value a call returned, if it returned. *)
Definition returned {A : Type} (r : outcome (A * t)) : option A :=
  match r with
  | Ok (a, _) => Some a
  | _ => None
  end.

(** *** Vocabulary of the properties *)

(** The cursor lies within the buffer. *)
Definition buffer_inv (self : t) : Prop :=
  0 <= _buffer_pos self <= len (_buffer self).

(** [_eof] is only set with an exhausted generator and an empty buffer. *)
Definition eof_inv (self : t) : Prop :=
  _eof self = true -> _buffer self = [] /\ _data self = [].

Definition wf (self : t) : Prop := buffer_inv self /\ eof_inv self.

(** The bytes still to be read: the unread part of the buffer, then the
    chunks the generator has yet to yield. *)
Definition remaining (self : t) : bytes :=
  skipn (Z.to_nat (_buffer_pos self)) (_buffer self) ++ List.concat (_data self).

(** [buffer_start_pos] of [seek], and its test for a target inside the
    buffer. *)
Definition buffer_start_pos (self : t) : Z := _pos self - _buffer_pos self.

Definition in_buffer (self : t) (new_pos : Z) : Prop :=
  buffer_start_pos self <= new_pos
  <= buffer_start_pos self + len (_buffer self).

(** The number of bytes [_read_from_buffer(size)] takes when [available]
    are left in the buffer. *)
Definition taken (size available : Z) : Z :=
  let size := Z.min size available in
  if size <? 0 then available else size.

(** The object [_read_from_buffer] works on once it has refilled an
    empty buffer. *)
Definition refilled (self : t) : t :=
  if _is_buffer_empty self then _load_buffer self else self.

(** The cursor and the position moved on by [k]. *)
Definition advance (k : Z) (self : t) : t :=
  {| _data := _data self;
     _buffer := _buffer self;
     _buffer_pos := _buffer_pos self + k;
     _pos := _pos self + k;
     _eof := _eof self;
     _closed := _closed self;
     fetch_calls := fetch_calls self;
     next_calls := next_calls self |}.

(** The object with another cursor and position and [_eof] cleared: what
    a [seek] inside the buffer makes of it. *)
Definition repositioned (new_pos : Z) (self : t) : t :=
  {| _data := _data self;
     _buffer := _buffer self;
     _buffer_pos := _buffer_pos self + (new_pos - _pos self);
     _pos := new_pos;
     _eof := false;
     _closed := _closed self;
     fetch_calls := fetch_calls self;
     next_calls := next_calls self |}.

(** The object after a [seek] outside the buffer. *)
Definition refetched (fetch : Z -> list bytes) (new_pos : Z) (self : t) : t :=
  {| _data := fetch new_pos;
     _buffer := [];
     _buffer_pos := 0;
     _pos := new_pos;
     _eof := false;
     _closed := _closed self;
     fetch_calls := fetch_calls self ++ [new_pos];
     next_calls := next_calls self |}.

(** [new_pos] of [seek] for the two supported values of [whence]. *)
Definition seek_target (offset whence : Z) (self : t) : Z :=
  if whence =? SEEK_SET then offset else _pos self + offset.

(** The same, but with [_eof] left as it was: a [seek] that updated the
    cursor and the position only. *)
Definition repositioned_only (new_pos : Z) (self : t) : t :=
  {| _data := _data self;
     _buffer := _buffer self;
     _buffer_pos := _buffer_pos self + (new_pos - _pos self);
     _pos := new_pos;
     _eof := _eof self;
     _closed := _closed self;
     fetch_calls := fetch_calls self;
     next_calls := next_calls self |}.

(** How many iterations the loop of [read] still needs at most. *)
Definition iterations_left (self : t) : nat :=
  if _eof self then 0%nat
  else if _is_buffer_empty self then S (List.length (_data self))
       else S (S (List.length (_data self))).

(** *** Sample sources *)

Definition bs (s : string) : bytes := list_byte_of_string s.

(** [l] cut into chunks of [S n] bytes. *)
Fixpoint chunks (fuel n : nat) (l : bytes) : list bytes :=
  match fuel, l with
  | O, _ | _, [] => []
  | S fuel', _ => firstn (S n) l :: chunks fuel' n (skipn (S n) l)
  end.

(** A fetch function over a fixed content: [content[offset:]], served two
    bytes at a time. *)
Definition fetch_content (content : bytes) (offset : Z) : list bytes :=
  let rest := skipn (Z.to_nat (slice_index (len content) offset)) content in
  chunks (List.length rest) 1 rest.

Definition abcd : Z -> list bytes := fetch_content (bs "abcd").

(** The object [VfsFile(fetch)] after the calls [os]. *)
Definition state_after (fetch : Z -> list bytes) (os : list op) : t :=
  match run fetch os (__init__ fetch) with
  | Ok self => self
  | _ => __init__ fetch
  end.

(** Over "abcd": one byte read, so that "b" is left in the buffer. *)
Definition one_byte_read : t := state_after abcd [Read1 1].

(** Over "abcd": everything read, the end of the content seen. *)
Definition read_to_the_end : t := state_after abcd [Read (-1)].

(** Over "abcd": one byte read, then closed. *)
Definition closed_at_one : t := state_after abcd [Read1 1; Close].

(** *** Sources that serve one content *)

(** [fetch] serves [content]: the chunks of [fetch(offset)], put together,
    are [content[offset:]], for every offset that is not negative. *)
Definition serves (fetch : Z -> list bytes) (content : bytes) : Prop :=
  forall offset : Z,
    0 <= offset ->
    List.concat (fetch offset) = skipn (Z.to_nat offset) content.

(** The buffer and the chunks the generator has yet to yield are the
    content from [buffer_start_pos] on. *)
Definition coherent (content : bytes) (self : t) : Prop :=
  0 <= buffer_start_pos self
  /\ _buffer self ++ List.concat (_data self)
     = skipn (Z.to_nat (buffer_start_pos self)) content.


(** "abcd" served as a single chunk, whatever the offset. *)
Definition abcd_in_one_chunk : Z -> list bytes := fun _ => [bs "abcd"].

(** Over "abcd": the first chunk read, nothing left in the buffer. *)
Definition first_chunk_read : t := state_after abcd [Read1 2].

(** *** What a refill gives, and other writable buffers *)


(** Two of the writable bytes-like objects [readinto1] can be handed: a
    bytearray and an [array.array('B')], each with its items. *)
Inductive writable : Type :=
| Bytearray (items : bytes)
| ArrayB (items : bytes).

Definition items_of (b : writable) : bytes :=
  match b with
  | Bytearray items | ArrayB items => items
  end.

(** [b[:k] = data], [data] being a bytes object: a bytearray takes it, an
    array raises TypeError (it can only be assigned an array). *)
Definition assign_bytes_prefix (b : writable) (k : Z) (data : bytes)
  : option writable :=
  match b with
  | Bytearray items => Some (Bytearray (assign_prefix items k data))
  | ArrayB _ => None
  end.

(** How the last two lines of [readinto1] end: with the count returned and
    [b] filled, or in the TypeError of the slice assignment. *)
Inductive stored : Type :=
| Stored (count : Z) (b : writable)
| TypeError.

(** [readinto1(b)] for both kinds of [b], next to the object as the call
    leaves it. *)
Definition readinto1_writable (b : writable) (self : t)
  : outcome (stored * t) :=
  _ <- _ensure_not_closed self ;;
  '(data, self) <- read1 (len (items_of b)) self ;;
  match assign_bytes_prefix b (len data) data with
  | Some b' => Ok (Stored (len data) b', self)
  | None => Ok (TypeError, self)
  end.

End VfsFile.

(** ** VFS *)

Module VFS.

(** A stat entry: [pathspec.path] and the rest of the payload, which [ls]
    never looks at. *)
Record StatEntry : Type := mkStat {
  pathspec_path : string;
  st_payload : Z
}.

(** What a call of the API client yields: a value or
    [api_errors.AccessForbiddenError], the one failure [ls] handles. *)
Inductive api (A : Type) : Type :=
| Returns (a : A)
| AccessForbiddenError (e : string).
Arguments Returns {A} a.
Arguments AccessForbiddenError {A} e.

(** The object [client.File(p).Get()] returns: [is_directory], and what
    [ListFiles()] yields, as the [data.stat] of its items. *)
Record ApiFile : Type := mkFile {
  is_directory : bool;
  ListFiles : api (list StatEntry)
}.

(** [self._client]: its [client_id], and [File(p).Get()] as a function of
    the VFS path [p]. *)
Record Client : Type := mkClient {
  client_id : string;
  File_Get : string -> api ApiFile
}.

(** grr_colab.errors, as far as [ls] raises them. *)
Inductive error : Type :=
| NotDirectoryError (cid path : string)
| ApprovalMissingError (cid e : string).

Inductive result : Type :=
| Ok (entries : list StatEntry)
| Raise (e : error).

(** The calls [ls] makes to the API client, with their outcome: [None]
    when the call returned, [Some e] when it raised
    [AccessForbiddenError(e)]. *)
Inductive call : Type :=
| CallGet (vfs_path : string) (raised : option string)
| CallListFiles (vfs_path : string) (raised : option string).

Definition forbidden (c : call) : option string :=
  match c with
  | CallGet _ raised | CallListFiles _ raised => raised
  end.

Definition get_vfs_path (path : string) : string :=
  ("fs/os" ++ path)%string.

Section WithClient.

Variable _client : Client.

(** The [for entry in stat_entries] loop of [ls]; [rec p] is
    [self.ls(p, max_depth - 1)] and [inner_entries] the accumulator.
    Returns the calls made next to the loop's outcome. *)
Fixpoint ls_loop (rec : string -> list call * result)
    (stat_entries inner_entries : list StatEntry) : list call * result :=
  match stat_entries with
  | [] => ([], Ok inner_entries)
  | entry :: rest =>
      let '(calls, r) := rec (pathspec_path entry) in
      match r with
      | Ok sub =>
          let '(calls', r') := ls_loop rec rest (inner_entries ++ sub) in
          (calls ++ calls', r')
      | Raise (NotDirectoryError _ _) =>
          let '(calls', r') := ls_loop rec rest (inner_entries ++ []) in
          (calls ++ calls', r')
      | Raise e => (calls, Raise e)
      end
  end.

(** [ls] by the number of levels left: [depth = 0] is [max_depth < 1]. *)
Fixpoint ls_depth (depth : nat) (path : string) : list call * result :=
  match depth with
  | O => ([], Ok [])
  | S depth' =>
      let p := get_vfs_path path in
      match File_Get _client p with
      | AccessForbiddenError e =>
          ([CallGet p (Some e)],
           Raise (ApprovalMissingError (client_id _client) e))
      | Returns f =>
          if negb (is_directory f) then
            ([CallGet p None],
             Raise (NotDirectoryError (client_id _client) path))
          else
            match ListFiles f with
            | AccessForbiddenError e =>
                ([CallGet p None; CallListFiles p (Some e)],
                 Raise (ApprovalMissingError (client_id _client) e))
            | Returns stat_entries =>
                let '(calls, r) :=
                  ls_loop (ls_depth depth') stat_entries [] in
                ([CallGet p None; CallListFiles p None] ++ calls,
                 match r with
                 | Ok inner_entries => Ok (stat_entries ++ inner_entries)
                 | Raise e => Raise e
                 end)
            end
      end
  end.

(** [ls(path, max_depth)] with the calls it made. *)
Definition ls_calls (path : string) (max_depth : Z) : list call * result :=
  ls_depth (Z.to_nat max_depth) path.

Definition ls (path : string) (max_depth : Z) : result :=
  snd (ls_calls path max_depth).

(** The listing the words "each parent-level entry is followed
    immediately by its own subtree's entries, before the next sibling's
    subtree" describe: a pre-order walk, where nothing is listed below a
    child that cannot be listed.  It is compared with [ls] below. *)
Fixpoint preorder (depth : nat) (path : string) : list StatEntry :=
  match depth with
  | O => []
  | S depth' =>
      match File_Get _client (get_vfs_path path) with
      | Returns f =>
          if is_directory f then
            match ListFiles f with
            | Returns stat_entries =>
                flat_map
                  (fun entry =>
                     entry :: preorder depth' (pathspec_path entry))
                  stat_entries
            | AccessForbiddenError _ => []
            end
          else []
      | AccessForbiddenError _ => []
      end
  end.

(** What the entry of a child adds to [inner_entries], [rec p] being
    the listing of [p]: that listing, or nothing when it raised. *)
Definition below (rec : string -> list call * result) (entry : StatEntry)
  : list StatEntry :=
  match snd (rec (pathspec_path entry)) with
  | Ok sub => sub
  | Raise _ => []
  end.

(** What a child adds below the parent level when [depth] levels are
    left for it. *)
Definition descend (depth : nat) (entry : StatEntry) : list StatEntry :=
  below (ls_depth depth) entry.

(** No call of a log was forbidden. *)
Definition all_returned (calls : list call) : Prop :=
  Forall (fun call => forbidden call = None) calls.

(** The log of a listing: no call was forbidden, unless the listing
    raised ApprovalMissingError, and then the forbidden call is the
    last one made and the error carries what it raised. *)
Definition sound_log (cr : list call * result) : Prop :=
  match snd cr with
  | Raise (ApprovalMissingError cid e) =>
      cid = client_id _client
      /\ exists (calls : list call) (last : call),
          fst cr = calls ++ [last]
          /\ all_returned calls
          /\ forbidden last = Some e
  | _ => all_returned (fst cr)
  end.

End WithClient.

(** *** Sample clients *)

Definition stat (path : string) : StatEntry := mkStat path 0.

Definition directory (children : list string) : api ApiFile :=
  Returns (mkFile true (Returns (map stat children))).

Definition plain_file : api ApiFile :=
  Returns (mkFile false (Returns [])).

(** [/] holds the directory [/a], the file [/f] and the directory [/b];
    [/a] holds the file [/a/x], and [/b] the file [/b/y]. *)
Definition tree : Client :=
  mkClient "C.1"
    (fun p =>
       if (p =? "fs/os/")%string then directory ["/a"; "/f"; "/b"]%string
       else if (p =? "fs/os/a")%string then directory ["/a/x"]%string
       else if (p =? "fs/os/b")%string then directory ["/b/y"]%string
       else plain_file).

(** The same, but the listing of [/b] is forbidden. *)
Definition guarded_tree : Client :=
  mkClient "C.1"
    (fun p =>
       if (p =? "fs/os/")%string then directory ["/a"; "/f"; "/b"]%string
       else if (p =? "fs/os/a")%string then directory ["/a/x"]%string
       else if (p =? "fs/os/b")%string then
              Returns (mkFile true (AccessForbiddenError "no approval"))
       else plain_file).

(** *** wget and open *)

(** What [wget] and [open] raise: ValueError, or one of grr_colab.errors. *)
Inductive failure : Type :=
| ValueError (msg : string)
| VfsError (e : error).

Inductive returns (A : Type) : Type :=
| Returned (a : A)
| Failed (f : failure).
Arguments Returned {A} a.
Arguments Failed {A} f.

(** ['{}/api/clients/{}/vfs-blob/{}'.format(url, client_id, vfs_path)] *)
Definition link_format (url cid vfs_path : string) : string :=
  (url ++ "/api/clients/" ++ cid ++ "/vfs-blob/" ++ vfs_path)%string.

(** [wget(path)] once [FLAGS.grr_admin_ui_url] is known to be the
    non-empty string [url]; with the calls made to the API client. *)
Definition wget_with_url (url : string) (_client : Client) (path : string)
  : list call * returns string :=
  let p := get_vfs_path path in
  match File_Get _client p with
  | AccessForbiddenError e =>
      ([CallGet p (Some e)],
       Failed (VfsError (ApprovalMissingError (client_id _client) e)))
  | Returns f =>
      if is_directory f then
        ([CallGet p None],
         Failed (ValueError ("`" ++ path ++ "` is a directory")%string))
      else
        ([CallGet p None],
         Returned (link_format url (client_id _client) p))
  end.

(** [wget(path)] with the calls it made to the API client.  The flag is
    None or a string; [not FLAGS.grr_admin_ui_url] holds of None and of the
    empty string. *)
Definition wget_calls (grr_admin_ui_url : option string) (_client : Client)
    (path : string) : list call * returns string :=
  match grr_admin_ui_url with
  | None =>
      ([], Failed (ValueError "GRR Admin UI URL has not been specified"))
  | Some url =>
      if (url =? "")%string then
        ([], Failed (ValueError "GRR Admin UI URL has not been specified"))
      else wget_with_url url _client path
  end.

Definition wget (grr_admin_ui_url : option string) (_client : Client)
    (path : string) : returns string :=
  snd (wget_calls grr_admin_ui_url _client path).

(** What [open] uses of the client: [VerifyAccess()], and
    [File(p).GetBlobWithOffset] as a function of the VFS path [p]. *)
Record BlobClient : Type := mkBlobClient {
  blob_client_id : string;
  VerifyAccess : api unit;
  GetBlobWithOffset : string -> Z -> list VfsFile.bytes
}.

Definition open (_client : BlobClient) (path : string)
  : returns VfsFile.t :=
  let p := get_vfs_path path in
  match VerifyAccess _client with
  | AccessForbiddenError e =>
      Failed (VfsError (ApprovalMissingError (blob_client_id _client) e))
  | Returns _ => Returned (VfsFile.__init__ (GetBlobWithOffset _client p))
  end.

(** A client that serves "abcd" for every file. *)
Definition abcd_client : BlobClient :=
  mkBlobClient "C.1" (Returns tt) (fun _ => VfsFile.abcd).

End VFS.

(** * Properties *)

(** ** Slices *)

Module PyFacts.

Import Py.

Lemma len_nonneg {A : Type} (l : list A) : 0 <= len l.
Proof. unfold len. lia. Qed.

Lemma len_app {A : Type} (l1 l2 : list A) : len (l1 ++ l2) = len l1 + len l2.
Proof. unfold len. rewrite length_app. lia. Qed.

Lemma slice_index_in_range (n i : Z) : 0 <= i <= n -> slice_index n i = i.
Proof.
  intros H. unfold slice_index.
  destruct (Z.ltb_spec i 0); lia.
Qed.

(** Within [0 <= i <= j <= len l] a slice is a [firstn] of a [skipn]. *)
Lemma slice_in_range {A : Type} (l : list A) (i j : Z) :
  0 <= i -> i <= j -> j <= len l ->
  slice l i j = firstn (Z.to_nat (j - i)) (skipn (Z.to_nat i) l).
Proof.
  intros Hi Hij Hj. unfold slice.
  rewrite !slice_index_in_range by lia. reflexivity.
Qed.

(** The slice [_read_from_buffer] returns, after it has advanced the
    cursor from [pos] by [size]. *)
Lemma slice_taken {A : Type} (l : list A) (pos size : Z) :
  0 <= pos -> 0 <= size -> pos + size <= len l ->
  slice l (pos + size - size) (pos + size)
  = firstn (Z.to_nat size) (skipn (Z.to_nat pos) l).
Proof.
  intros Hp Hs Hl. rewrite slice_in_range by lia.
  replace (pos + size - size) with pos by lia.
  replace (pos + size - pos) with size by lia. reflexivity.
Qed.

Lemma len_firstn {A : Type} (l : list A) (n : Z) :
  0 <= n <= len l -> len (firstn (Z.to_nat n) l) = n.
Proof.
  intros H. unfold len in *. rewrite length_firstn. lia.
Qed.

Lemma len_skipn {A : Type} (l : list A) (n : Z) :
  0 <= n <= len l -> len (skipn (Z.to_nat n) l) = len l - n.
Proof.
  intros H. unfold len in *. rewrite length_skipn. lia.
Qed.

(** Taking [k] and then [n - k] more is taking [n]. *)
Lemma firstn_then_firstn {A : Type} (l : list A) (k n : nat) :
  (k <= n)%nat ->
  firstn k l ++ firstn (n - k) (skipn k l) = firstn n l.
Proof.
  revert l n. induction k as [|k IH]; intros l n Hkn.
  - cbn. now rewrite Nat.sub_0_r.
  - destruct n as [|n]; [lia|]. destruct l as [|x l]; cbn.
    + now rewrite firstn_nil.
    + f_equal. apply IH. lia.
Qed.

Lemma skipn_skipn_add {A : Type} (l : list A) (k n : nat) :
  skipn n (skipn k l) = skipn (k + n) l.
Proof.
  revert l. induction k as [|k IH]; intros l; cbn.
  - reflexivity.
  - destruct l as [|x l]; [now rewrite skipn_nil | apply IH].
Qed.

End PyFacts.

(** ** VfsFile: reading from the buffer *)

Module VfsFileFacts.

Import Py PyFacts VfsFile.

Lemma taken_bounds (size available : Z) :
  0 <= available ->
  0 <= taken size available <= available
  /\ (0 <= size -> taken size available = Z.min size available)
  /\ (size < 0 -> taken size available = available).
Proof.
  intros Ha. unfold taken.
  destruct (Z.ltb_spec (Z.min size available) 0); lia.
Qed.

Lemma load_buffer_buffer_inv (self : t) :
  buffer_inv self -> buffer_inv (_load_buffer self).
Proof.
  unfold buffer_inv, _load_buffer. intros H.
  destruct (_eof self); [assumption|].
  destruct (_data self) as [|chunk rest]; cbn.
  - unfold len; cbn; lia.
  - pose proof (len_nonneg chunk); lia.
Qed.

Lemma load_buffer_eof_inv (self : t) :
  eof_inv self -> eof_inv (_load_buffer self).
Proof.
  unfold eof_inv, _load_buffer. intros H.
  destruct (_eof self) eqn:E; [intros _; now apply H|].
  destruct (_data self); cbn; [auto | congruence].
Qed.

Lemma refilled_buffer_inv (self : t) :
  buffer_inv self -> buffer_inv (refilled self).
Proof.
  unfold refilled. intros H.
  destruct (_is_buffer_empty self); auto using load_buffer_buffer_inv.
Qed.

Lemma refilled_eof_inv (self : t) :
  eof_inv self -> eof_inv (refilled self).
Proof.
  unfold refilled. intros H.
  destruct (_is_buffer_empty self); auto using load_buffer_eof_inv.
Qed.

(** [_read_from_buffer], with the slice it returns computed. *)
Lemma read_from_buffer_eq (size : Z) (self : t) :
  buffer_inv self ->
  let self1 := refilled self in
  let k := taken size (len (_buffer self1) - _buffer_pos self1) in
  _read_from_buffer size self
  = (firstn (Z.to_nat k) (skipn (Z.to_nat (_buffer_pos self1)) (_buffer self1)),
     advance k self1).
Proof.
  intros H self1 k.
  assert (H1 : buffer_inv self1) by now apply refilled_buffer_inv.
  unfold buffer_inv in H1.
  destruct (taken_bounds size (len (_buffer self1) - _buffer_pos self1))
    as [Hk _]; [lia|]. fold k in Hk.
  change (_read_from_buffer size self)
    with (slice (_buffer self1) (_buffer_pos self1 + k - k)
                (_buffer_pos self1 + k), advance k self1).
  rewrite slice_taken by lia. reflexivity.
Qed.

Lemma refilled_frame (self : t) :
  _pos (refilled self) = _pos self
  /\ _closed (refilled self) = _closed self
  /\ fetch_calls (refilled self) = fetch_calls self
  /\ (next_calls self <= next_calls (refilled self) <= S (next_calls self))%nat.
Proof.
  unfold refilled, _load_buffer.
  destruct (_is_buffer_empty self); [|repeat split; lia].
  destruct (_eof self); [repeat split; lia|].
  destruct (_data self); cbn; repeat split; lia.
Qed.

Lemma skipn_all_len {A : Type} (l : list A) : skipn (Z.to_nat (len l)) l = [].
Proof. unfold len. rewrite Nat2Z.id. apply skipn_all. Qed.

Lemma refilled_remaining (self : t) :
  remaining (refilled self) = remaining self.
Proof.
  unfold refilled, _is_buffer_empty.
  destruct (Z.eqb_spec (_buffer_pos self) (len (_buffer self))) as [E|];
    [|reflexivity].
  unfold _load_buffer. destruct (_eof self); [reflexivity|].
  unfold remaining. rewrite E, skipn_all_len.
  destruct (_data self); reflexivity.
Qed.

(** What one [_read_from_buffer] call does to an object whose cursor lies
    within its buffer. *)
Lemma read_from_buffer_spec (size : Z) (self self' : t) (chunk : bytes) :
  buffer_inv self ->
  _read_from_buffer size self = (chunk, self') ->
  buffer_inv self'
  /\ _pos self' = _pos self + len chunk
  /\ (0 <= size -> len chunk <= size)
  /\ _closed self' = _closed self
  /\ fetch_calls self' = fetch_calls self
  /\ (next_calls self <= next_calls self' <= S (next_calls self))%nat
  /\ remaining self = chunk ++ remaining self'.
Proof.
  intros H E. rewrite read_from_buffer_eq in E by assumption.
  pose proof (refilled_buffer_inv self H) as H1.
  pose proof (refilled_frame self) as (Fp & Fc & Ff & Fn).
  pose proof (refilled_remaining self) as Fr.
  set (self1 := refilled self) in *. unfold buffer_inv in H1.
  destruct (taken_bounds size (len (_buffer self1) - _buffer_pos self1))
    as (Hk & Hmin & _); [lia|].
  set (k := taken size (len (_buffer self1) - _buffer_pos self1)) in *.
  injection E as <- <-.
  assert (L : len (firstn (Z.to_nat k)
                     (skipn (Z.to_nat (_buffer_pos self1)) (_buffer self1)))
              = k).
  { apply len_firstn. rewrite len_skipn by lia. lia. }
  rewrite L. unfold buffer_inv. cbn.
  repeat split; try lia; try congruence.
  rewrite <- Fr. unfold remaining. cbn.
  rewrite app_assoc. f_equal.
  replace (Z.to_nat (_buffer_pos self1 + k))
    with (Z.to_nat (_buffer_pos self1) + Z.to_nat k)%nat by lia.
  rewrite <- skipn_skipn_add. now rewrite firstn_skipn.
Qed.

Lemma read_from_buffer_eof_inv (size : Z) (self self' : t) (chunk : bytes) :
  eof_inv self ->
  _read_from_buffer size self = (chunk, self') ->
  eof_inv self'.
Proof.
  intros H E. unfold _read_from_buffer in E. injection E as _ <-.
  apply refilled_eof_inv in H. exact H.
Qed.

(** A call that leaves the loop of [read] running has used up one of
    the iterations the loop had left. *)
Lemma read_from_buffer_progress (size : Z) (self self' : t) (chunk : bytes) :
  buffer_inv self ->
  _eof self = false ->
  _read_from_buffer size self = (chunk, self') ->
  _eof self' = false ->
  size < 0 \/ len chunk < size ->
  (S (iterations_left self') <= iterations_left self)%nat.
Proof.
  intros H Eof E Eof' Hs.
  rewrite read_from_buffer_eq in E by assumption.
  pose proof (refilled_buffer_inv self H) as H1. unfold buffer_inv in H, H1.
  destruct (taken_bounds size (len (_buffer (refilled self))
                               - _buffer_pos (refilled self)))
    as (Hk & Hmin & Hneg); [lia|].
  injection E as Ec <-.
  assert (L : len chunk
              = taken size (len (_buffer (refilled self))
                            - _buffer_pos (refilled self))).
  { rewrite <- Ec. apply len_firstn. rewrite len_skipn by lia. lia. }
  assert (K : taken size (len (_buffer (refilled self))
                          - _buffer_pos (refilled self))
              = len (_buffer (refilled self)) - _buffer_pos (refilled self)).
  { destruct Hs as [Hs|Hs]; [now apply Hneg|].
    destruct (Z_lt_ge_dec size 0) as [Hn|Hn]; [now apply Hneg|].
    rewrite Hmin in * by lia. lia. }
  cbn in Eof'. unfold iterations_left at 1. cbn [_eof advance].
  rewrite Eof'. unfold _is_buffer_empty at 1. cbn [_buffer_pos _buffer advance].
  rewrite K.
  replace (_buffer_pos (refilled self)
           + (len (_buffer (refilled self)) - _buffer_pos (refilled self)))
    with (len (_buffer (refilled self))) by lia.
  rewrite Z.eqb_refl. cbn [_data advance].
  unfold iterations_left. rewrite Eof.
  unfold refilled in *.
  destruct (_is_buffer_empty self); [|lia].
  unfold _load_buffer in *. rewrite Eof in *.
  destruct (_data self); cbn in *; [discriminate | lia].
Qed.

(** ** VfsFile: the loop of read *)

Lemma iterations_left_eof (self : t) :
  _eof self = true -> iterations_left self = 0%nat.
Proof. unfold iterations_left. now intros ->. Qed.

Lemma iterations_left_pos (self : t) :
  _eof self = false -> (1 <= iterations_left self)%nat.
Proof.
  unfold iterations_left. intros ->.
  destruct (_is_buffer_empty self); lia.
Qed.

(** The test of the [while] loop of [read]. *)
Lemma read_loop_test (size : Z) (data : bytes) (self : t) :
  (negb (_eof self) && ((size <? 0) || (len data <? size)) = true
   <-> _eof self = false /\ (size < 0 \/ len data < size)).
Proof.
  rewrite andb_true_iff, orb_true_iff, negb_true_iff, !Z.ltb_lt. tauto.
Qed.

Lemma read_loop_exit (fuel : nat) (size : Z) (data : bytes) (self : t) :
  negb (_eof self) && ((size <? 0) || (len data <? size)) = false ->
  read_loop fuel size data self = Ok (data, self).
Proof. intros C. destruct fuel; cbn [read_loop]; now rewrite C. Qed.

Lemma read_loop_step (fuel : nat) (size : Z) (data : bytes) (self : t) :
  negb (_eof self) && ((size <? 0) || (len data <? size)) = true ->
  read_loop (S fuel) size data self
  = read_loop fuel size
      (data ++ fst (_read_from_buffer (size - len data) self))
      (snd (_read_from_buffer (size - len data) self)).
Proof.
  intros C. cbn [read_loop]. rewrite C.
  now destruct (_read_from_buffer (size - len data) self).
Qed.

(** With enough iterations the loop of [read] ends, and what it has added
    to [data] is a prefix of the bytes that were left. *)
Lemma read_loop_spec (fuel : nat) :
  forall (size : Z) (data : bytes) (self : t),
    wf self ->
    size < 0 \/ len data <= size ->
    (size < 0 \/ len data < size -> (iterations_left self <= fuel)%nat) ->
    exists (more : bytes) (self' : t),
      read_loop fuel size data self = Ok (data ++ more, self')
      /\ wf self'
      /\ remaining self = more ++ remaining self'
      /\ (0 <= size -> len data + len more <= size)
      /\ (_eof self' = true \/ (0 <= size /\ len data + len more = size))
      /\ _pos self' = _pos self + len more
      /\ _closed self' = _closed self
      /\ fetch_calls self' = fetch_calls self
      /\ (next_calls self <= next_calls self')%nat.
Proof.
  induction fuel as [|fuel IH]; intros size data self Hwf Hsize Hfuel.
  all: destruct (negb (_eof self) && ((size <? 0) || (len data <? size)))
         eqn:C.
  2, 4: exists [], self; rewrite app_nil_r;
    change (len (@nil Byte.byte)) with 0;
    split; [now apply read_loop_exit|];
    split; [assumption|]; split; [reflexivity|];
    assert (_eof self = true \/ (0 <= size /\ len data >= size))
      by (destruct (_eof self); [now left|]; right; cbn in C;
          apply orb_false_iff in C; rewrite !Z.ltb_ge in C; lia);
    repeat split; try lia; destruct H; [now left | right; lia].
  - apply read_loop_test in C. destruct C as [Eof Hcont].
    pose proof (iterations_left_pos self Eof).
    specialize (Hfuel Hcont). lia.
  - rewrite (read_loop_step _ _ _ _ C).
    apply read_loop_test in C. destruct C as [Eof Hcont].
    destruct (_read_from_buffer (size - len data) self)
      as [chunk self1] eqn:E. cbn [fst snd].
    destruct Hwf as [Hb He].
    pose proof (read_from_buffer_spec _ _ _ _ Hb E)
      as (Hb1 & Hp1 & Hcap1 & Hc1 & Hf1 & Hn1 & Hr1).
    pose proof (read_from_buffer_eof_inv _ _ _ _ He E) as He1.
    pose proof (len_nonneg data) as Hd.
    destruct (IH size (data ++ chunk) self1) as
      (more & self' & Hrun & Hwf' & Hr' & Hcap' & Hend' & Hp' & Hc' & Hf' & Hn').
    + split; assumption.
    + rewrite len_app. lia.
    + intros Hcont'. rewrite len_app in Hcont'.
      destruct (_eof self1) eqn:Eof1.
      * rewrite (iterations_left_eof self1 Eof1). lia.
      * assert (S (iterations_left self1) <= iterations_left self)%nat.
        { apply (read_from_buffer_progress (size - len data) self self1 chunk);
            auto; lia. }
        specialize (Hfuel Hcont). lia.
    + exists (chunk ++ more), self'. rewrite len_app in *.
      rewrite app_assoc. split; [exact Hrun|]. split; [exact Hwf'|].
      split; [rewrite Hr1, Hr'; now rewrite app_assoc|].
      repeat split; try lia; try congruence.
      destruct Hend' as [Hend'|Hend']; [now left | right; lia].
Qed.

Lemma remaining_eof (self : t) :
  wf self -> _eof self = true -> remaining self = [].
Proof.
  intros [_ He] Eof. destruct (He Eof) as [Hb Hd].
  unfold remaining. rewrite Hb, Hd, skipn_nil. reflexivity.
Qed.

Lemma iterations_left_fuel (self : t) :
  (iterations_left self <= read_fuel self)%nat.
Proof.
  unfold iterations_left, read_fuel.
  destruct (_eof self), (_is_buffer_empty self); lia.
Qed.

(** [read] on an open object returns, whatever the size asked for. *)
Lemma read_spec (size : Z) (self : t) :
  wf self ->
  _closed self = false ->
  exists (data : bytes) (self' : t),
    read size self = Ok (data, self')
    /\ wf self'
    /\ remaining self = data ++ remaining self'
    /\ (0 < size -> len data <= size)
    /\ (_eof self' = true \/ (0 < size /\ len data = size))
    /\ _pos self' = _pos self + len data
    /\ _closed self' = false
    /\ fetch_calls self' = fetch_calls self
    /\ (next_calls self <= next_calls self')%nat.
Proof.
  intros Hwf Hopen. unfold read, _ensure_not_closed, closed.
  rewrite Hopen. cbn [bind].
  set (size' := if size =? 0 then -1 else size).
  assert (Hs : size' <> 0 /\ (0 < size -> size' = size) /\ (0 < size' -> size' = size))
    by (subst size'; destruct (Z.eqb_spec size 0); lia).
  destruct (read_loop_spec (read_fuel self) size' [] self Hwf)
    as (data & self' & Hrun & Hwf' & Hr & Hcap & Hend & Hp & Hc & Hf & Hn).
  - change (len (@nil Byte.byte)) with 0. lia.
  - intros _. apply iterations_left_fuel.
  - exists data, self'. cbn [app] in Hrun.
    change (len (@nil Byte.byte)) with 0 in *.
    split; [exact Hrun|]. split; [exact Hwf'|]. split; [exact Hr|].
    split; [lia|]. split; [destruct Hend; [now left | right; lia]|].
    split; [lia|]. split; [congruence|]. split; [exact Hf | exact Hn].
Qed.

(** For a positive size [read] returns the first [size] of the bytes that
    were left and leaves the others. *)
Lemma read_positive (size : Z) (self : t) :
  wf self ->
  _closed self = false ->
  0 < size ->
  exists self' : t,
    read size self = Ok (firstn (Z.to_nat size) (remaining self), self')
    /\ wf self'
    /\ _closed self' = false
    /\ remaining self' = skipn (Z.to_nat size) (remaining self)
    /\ (len (remaining self) < size -> _eof self' = true).
Proof.
  intros Hwf Hopen Hsize.
  destruct (read_spec size self Hwf Hopen)
    as (data & self' & Hrun & Hwf' & Hr & Hcap & Hend & Hp & Hc & Hf & Hn).
  exists self'. specialize (Hcap Hsize).
  assert (Hlen : (List.length data <= Z.to_nat size)%nat)
    by (unfold len in Hcap; lia).
  destruct Hend as [Hend|[_ Hend]].
  - rewrite (remaining_eof self' Hwf' Hend), app_nil_r in Hr.
    rewrite Hr, firstn_all2, skipn_all2 by assumption.
    rewrite (remaining_eof self' Hwf' Hend).
    split; [exact Hrun|]. split; [exact Hwf'|]. split; [exact Hc|].
    split; [reflexivity|]. intros _. exact Hend.
  - assert (Heq : Z.to_nat size = List.length data)
      by (unfold len in Hend; lia).
    rewrite Hr, Heq, firstn_app, skipn_app, Nat.sub_diag.
    rewrite firstn_all, skipn_all. cbn [firstn skipn app].
    rewrite app_nil_r.
    split; [exact Hrun|]. split; [exact Hwf'|]. split; [exact Hc|].
    split; [reflexivity|].
    rewrite len_app, Hend. pose proof (len_nonneg (remaining self')).
    intros. lia.
Qed.

(** For a size that is negative, or zero, [read] returns all the bytes
    that were left. *)
Lemma read_to_end (size : Z) (self : t) :
  wf self ->
  _closed self = false ->
  size <= 0 ->
  exists self' : t,
    read size self = Ok (remaining self, self')
    /\ wf self'
    /\ _closed self' = false
    /\ _eof self' = true.
Proof.
  intros Hwf Hopen Hsize.
  destruct (read_spec size self Hwf Hopen)
    as (data & self' & Hrun & Hwf' & Hr & Hcap & Hend & Hp & Hc & Hf & Hn).
  exists self'. destruct Hend as [Hend|Hend]; [|lia].
  rewrite (remaining_eof self' Hwf' Hend), app_nil_r in Hr.
  rewrite Hr.
  split; [exact Hrun|]. split; [exact Hwf'|]. split; [exact Hc | exact Hend].
Qed.

(** Whatever [read] returns, the cursor is still within the buffer and
    the position has not gone back. *)
Lemma read_loop_buffer_inv (fuel : nat) :
  forall (size : Z) (data data' : bytes) (self self' : t),
    buffer_inv self ->
    read_loop fuel size data self = Ok (data', self') ->
    buffer_inv self' /\ _pos self <= _pos self'.
Proof.
  induction fuel as [|fuel IH]; intros size data data' self self' Hb Hrun.
  all: cbn [read_loop] in Hrun.
  all: destruct (negb (_eof self) && ((size <? 0) || (len data <? size))).
  all: try discriminate.
  all: try (injection Hrun as _ <-; split; [assumption | lia]).
  destruct (_read_from_buffer (size - len data) self) as [chunk self1] eqn:E.
  pose proof (read_from_buffer_spec _ _ _ _ Hb E) as (Hb1 & Hp1 & _).
  destruct (IH _ _ _ _ _ Hb1 Hrun) as [Hb' Hp'].
  pose proof (len_nonneg chunk). split; [assumption | lia].
Qed.

(** ** VfsFile: seek *)

Section Seek.

Variable fetch : Z -> list bytes.

Lemma open_tell (self : t) :
  _closed self = false -> tell self = Ok (_pos self).
Proof.
  intros H. unfold tell, _ensure_not_closed, closed. now rewrite H.
Qed.

Lemma in_buffer_test (self : t) (new_pos : Z) :
  (_pos self - _buffer_pos self <=? new_pos)
  && (new_pos <=? _pos self - _buffer_pos self + len (_buffer self)) = true
  <-> in_buffer self new_pos.
Proof.
  unfold in_buffer, buffer_start_pos.
  rewrite andb_true_iff, !Z.leb_le. tauto.
Qed.

(** [seek] with a supported whence, as the test on [new_pos] decides. *)
Lemma seek_supported (offset whence : Z) (self : t) :
  _closed self = false ->
  whence = SEEK_SET \/ whence = SEEK_CUR ->
  let new_pos := seek_target offset whence self in
  seek fetch offset whence self
  = Ok (new_pos,
        if (_pos self - _buffer_pos self <=? new_pos)
           && (new_pos <=? _pos self - _buffer_pos self + len (_buffer self))
        then repositioned new_pos self
        else refetched fetch new_pos self).
Proof.
  intros Hopen Hw new_pos. subst new_pos.
  destruct self as [d b bp p e c fc nc]. cbn in Hopen. subst c.
  unfold seek, seek_target, repositioned, refetched, tell,
    _ensure_not_closed, closed.
  destruct Hw as [-> | ->]; cbn -[Z.add Z.sub Z.leb len].
  - now destruct ((p - bp <=? offset) && (offset <=? p - bp + len b)).
  - now destruct ((p - bp <=? p + offset)
                  && (p + offset <=? p - bp + len b)).
Qed.

Lemma seek_inside (offset whence : Z) (self : t) :
  _closed self = false ->
  whence = SEEK_SET \/ whence = SEEK_CUR ->
  in_buffer self (seek_target offset whence self) ->
  seek fetch offset whence self
  = Ok (seek_target offset whence self,
        repositioned (seek_target offset whence self) self).
Proof.
  intros Hopen Hw Hin. rewrite seek_supported by assumption.
  apply in_buffer_test in Hin. now rewrite Hin.
Qed.

Lemma seek_outside (offset whence : Z) (self : t) :
  _closed self = false ->
  whence = SEEK_SET \/ whence = SEEK_CUR ->
  ~ in_buffer self (seek_target offset whence self) ->
  seek fetch offset whence self
  = Ok (seek_target offset whence self,
        refetched fetch (seek_target offset whence self) self).
Proof.
  intros Hopen Hw Hout. rewrite seek_supported by assumption.
  rewrite <- in_buffer_test in Hout.
  now destruct ((_pos self - _buffer_pos self
                 <=? seek_target offset whence self)
                && (seek_target offset whence self
                    <=? _pos self - _buffer_pos self + len (_buffer self))).
Qed.

Lemma seek_unsupported (offset whence : Z) (self : t) :
  _closed self = false ->
  whence <> SEEK_SET -> whence <> SEEK_CUR ->
  seek fetch offset whence self = Raise (UnsupportedOperation whence).
Proof.
  intros Hopen H0 H1. unfold seek, _ensure_not_closed, closed.
  rewrite Hopen. cbn [bind].
  destruct (Z.eqb_spec whence SEEK_SET); [contradiction|].
  destruct (Z.eqb_spec whence SEEK_CUR); [contradiction|]. reflexivity.
Qed.

(** A [seek] that returns was made on an open object with a supported
    whence. *)
Lemma seek_returns (offset whence : Z) (self self' : t) (pos : Z) :
  seek fetch offset whence self = Ok (pos, self') ->
  _closed self = false /\ (whence = SEEK_SET \/ whence = SEEK_CUR).
Proof.
  intros H. destruct (_closed self) eqn:Hc.
  - unfold seek, _ensure_not_closed, closed in H. rewrite Hc in H.
    discriminate.
  - split; [reflexivity|].
    destruct (Z.eq_dec whence SEEK_SET) as [|H0]; [now left|].
    destruct (Z.eq_dec whence SEEK_CUR) as [|H1]; [now right|].
    rewrite seek_unsupported in H by assumption. discriminate.
Qed.

Lemma repositioned_wf (new_pos : Z) (self : t) :
  buffer_inv self -> in_buffer self new_pos ->
  wf (repositioned new_pos self).
Proof.
  unfold wf, buffer_inv, in_buffer, buffer_start_pos, eof_inv, repositioned.
  intros Hb Hin. cbn [_buffer_pos _buffer _pos _eof _data].
  split; [lia | discriminate].
Qed.

Lemma refetched_wf (new_pos : Z) (self : t) :
  wf (refetched fetch new_pos self).
Proof.
  unfold wf, buffer_inv, eof_inv, refetched.
  cbn [_buffer_pos _buffer _pos _eof _data].
  split; [unfold len; cbn; lia | discriminate].
Qed.

Lemma seek_wf (offset whence : Z) (self self' : t) (pos : Z) :
  buffer_inv self ->
  seek fetch offset whence self = Ok (pos, self') ->
  wf self' /\ pos = seek_target offset whence self /\ _pos self' = pos
  /\ _closed self' = false.
Proof.
  intros Hb H. destruct (seek_returns _ _ _ _ _ H) as [Hopen Hw].
  rewrite seek_supported in H by assumption.
  injection H as <- <-.
  destruct ((_pos self - _buffer_pos self
             <=? seek_target offset whence self)
            && (seek_target offset whence self
                <=? _pos self - _buffer_pos self + len (_buffer self)))
    eqn:C.
  - apply in_buffer_test in C. split; [now apply repositioned_wf|].
    cbn. auto.
  - split; [apply refetched_wf|]. cbn. auto.
Qed.

End Seek.

(** ** VfsFile: read1 and readinto1 *)

(** With bytes left in the buffer [_read_from_buffer] takes them from it
    and leaves the generator alone. *)
Lemma read_from_buffer_nonempty (size : Z) (self self' : t) (chunk : bytes) :
  buffer_inv self ->
  _is_buffer_empty self = false ->
  _read_from_buffer size self = (chunk, self') ->
  let k := taken size (len (_buffer self) - _buffer_pos self) in
  chunk = firstn (Z.to_nat k) (skipn (Z.to_nat (_buffer_pos self)) (_buffer self))
  /\ self' = advance k self
  /\ len chunk = k.
Proof.
  intros Hb Em E k. rewrite read_from_buffer_eq in E by assumption.
  unfold refilled in E. rewrite Em in E. fold k in E.
  injection E as <- <-. split; [reflexivity|]. split; [reflexivity|].
  unfold buffer_inv in Hb.
  destruct (taken_bounds size (len (_buffer self) - _buffer_pos self))
    as (Hk & _); [lia|]. fold k in Hk.
  apply len_firstn. rewrite len_skipn by lia. lia.
Qed.



Lemma open_read1 (size : Z) (self : t) :
  _closed self = false ->
  read1 size self
  = (let has_data := negb (_is_buffer_empty self) in
     let '(data, self1) := _read_from_buffer size self in
     if has_data && ((size <? 0) || (len data <? size)) then
       let '(more, self2) := _read_from_buffer (size - len data) self1 in
       Ok (data ++ more, self2)
     else Ok (data, self1)).
Proof.
  intros H. unfold read1, _ensure_not_closed, closed. now rewrite H.
Qed.

(** [read1] on an open object returns; it never returns more than a
    non-negative [size] asks for, and calls the generator at most once. *)
Lemma read1_spec (size : Z) (self : t) :
  buffer_inv self ->
  _closed self = false ->
  exists (data : bytes) (self' : t),
    read1 size self = Ok (data, self')
    /\ buffer_inv self'
    /\ (eof_inv self -> eof_inv self')
    /\ (0 <= size -> len data <= size)
    /\ _pos self' = _pos self + len data
    /\ _closed self' = false
    /\ fetch_calls self' = fetch_calls self
    /\ (next_calls self <= next_calls self' <= S (next_calls self))%nat
    /\ remaining self = data ++ remaining self'.
Proof.
  intros Hb Hopen. rewrite open_read1 by assumption. cbv zeta.
  destruct (_read_from_buffer size self) as [data self1] eqn:E1.
  pose proof (read_from_buffer_spec _ _ _ _ Hb E1)
    as (Hb1 & Hp1 & Hcap1 & Hc1 & Hf1 & Hn1 & Hr1).
  destruct (negb (_is_buffer_empty self)
            && ((size <? 0) || (len data <? size))) eqn:C.
  - destruct (_read_from_buffer (size - len data) self1)
      as [more self2] eqn:E2.
    pose proof (read_from_buffer_spec _ _ _ _ Hb1 E2)
      as (Hb2 & Hp2 & Hcap2 & Hc2 & Hf2 & Hn2 & Hr2).
    apply andb_true_iff in C. destruct C as [Em C].
    apply negb_true_iff in Em.
    destruct (read_from_buffer_nonempty _ _ _ _ Hb Em E1) as (_ & -> & _).
    cbn [next_calls advance] in *.
    exists (data ++ more), self2. rewrite len_app.
    split; [reflexivity|]. split; [assumption|].
    split; [intros He; eapply read_from_buffer_eof_inv; [|exact E2];
            eapply read_from_buffer_eof_inv; [exact He | exact E1]|].
    split; [intros Hs; apply orb_true_iff in C;
            rewrite !Z.ltb_lt in C; lia|].
    split; [lia|]. split; [congruence|]. split; [congruence|].
    split; [lia|]. rewrite Hr1, Hr2. now rewrite app_assoc.
  - exists data, self1.
    split; [reflexivity|]. split; [assumption|].
    split; [intros He; eapply read_from_buffer_eof_inv; [exact He | exact E1]|].
    split; [assumption|]. split; [assumption|]. split; [congruence|].
    split; [assumption|]. split; [assumption|]. assumption.
Qed.


(** ** VfsFile: the invariant of the objects *)

Lemma init_wf (fetch : Z -> list bytes) : wf (__init__ fetch).
Proof.
  unfold wf, buffer_inv, eof_inv, __init__. cbn. split; [lia | discriminate].
Qed.

Lemma returning_read (size : Z) (self self' : t) (data : bytes) :
  read size self = Ok (data, self') ->
  _closed self = false
  /\ read_loop (read_fuel self) (if size =? 0 then -1 else size) [] self
     = Ok (data, self').
Proof.
  unfold read, _ensure_not_closed, closed.
  destruct (_closed self); [discriminate | auto].
Qed.

Lemma returning_read1 (size : Z) (self self' : t) (data : bytes) :
  read1 size self = Ok (data, self') -> _closed self = false.
Proof.
  unfold read1, _ensure_not_closed, closed.
  destruct (_closed self); [discriminate | auto].
Qed.

Lemma returning_readinto1 (b : bytes) (self self' : t) (r : Z * bytes) :
  readinto1 b self = Ok (r, self') ->
  exists data : bytes, read1 (len b) self = Ok (data, self').
Proof.
  unfold readinto1, _ensure_not_closed, closed.
  destruct (_closed self); [discriminate|]. cbn [bind].
  destruct (read1 (len b) self) as [[data self1]| |]; try discriminate.
  cbn [bind]. intros H. injection H as _ <-. now exists data.
Qed.

(** The calls, one by one, as far as they return. *)
Lemma step_cases (fetch : Z -> list bytes) (o : op) (self self' : t) :
  step fetch o self = Ok self' ->
  match o with
  | Read size => exists data, read size self = Ok (data, self')
  | Read1 size => exists data, read1 size self = Ok (data, self')
  | Readinto1 b => exists r, readinto1 b self = Ok (r, self')
  | Seek offset whence =>
      exists pos, seek fetch offset whence self = Ok (pos, self')
  | Tell => self' = self /\ _closed self = false
  | Close => close self = Ok (tt, self')
  end.
Proof.
  destruct o; cbn [step].
  - destruct (read size self) as [[data s]| |]; try discriminate.
    cbn. intros H; injection H as <-. now exists data.
  - destruct (read1 size self) as [[data s]| |]; try discriminate.
    cbn. intros H; injection H as <-. now exists data.
  - destruct (readinto1 b self) as [[r s]| |]; try discriminate.
    cbn. intros H; injection H as <-. now exists r.
  - destruct (seek fetch offset whence self) as [[pos s]| |];
      try discriminate.
    cbn. intros H; injection H as <-. now exists pos.
  - unfold tell, _ensure_not_closed, closed.
    destruct (_closed self); [discriminate|].
    cbn. intros H; injection H as <-. auto.
  - cbn. intros H; injection H as <-. reflexivity.
Qed.

Lemma step_wf (fetch : Z -> list bytes) (o : op) (self self' : t) :
  wf self -> step fetch o self = Ok self' -> wf self'.
Proof.
  intros Hwf H. apply step_cases in H. destruct o.
  - destruct H as [data H].
    destruct (returning_read _ _ _ _ H) as [Hopen _].
    destruct (read_spec size self Hwf Hopen) as (d & s & E & Hwf' & _).
    congruence.
  - destruct H as [data H].
    pose proof (returning_read1 _ _ _ _ H) as Hopen. destruct Hwf as [Hb He].
    destruct (read1_spec size self Hb Hopen) as (d & s & E & Hb' & He' & _).
    assert (s = self') by congruence. subst s. split; auto.
  - destruct H as [r H]. apply returning_readinto1 in H.
    destruct H as [data H].
    pose proof (returning_read1 _ _ _ _ H) as Hopen. destruct Hwf as [Hb He].
    destruct (read1_spec (len b) self Hb Hopen)
      as (d & s & E & Hb' & He' & _).
    assert (s = self') by congruence. subst s. split; auto.
  - destruct H as [pos H]. destruct Hwf as [Hb _].
    now destruct (seek_wf fetch _ _ _ _ _ Hb H).
  - destruct H as [-> _]. assumption.
  - cbn in H. injection H as <-. exact Hwf.
Qed.

(** Every object a client can hold satisfies the invariant. *)
Lemma reachable_wf (fetch : Z -> list bytes) (self : t) :
  reachable fetch self -> wf self.
Proof.
  induction 1 as [|o self self' _ IH Hstep].
  - apply init_wf.
  - exact (step_wf fetch o self self' IH Hstep).
Qed.

Lemma run_reachable (fetch : Z -> list bytes) (os : list op) :
  forall self self' : t,
    reachable fetch self -> run fetch os self = Ok self' ->
    reachable fetch self'.
Proof.
  induction os as [|o os IH]; intros self self' Hr H; cbn [run] in H.
  - now injection H as <-.
  - destruct (step fetch o self) as [s| |] eqn:E; try discriminate.
    cbn [bind] in H. apply (IH s); [|exact H].
    now apply (reachable_step fetch o self s).
Qed.

End VfsFileFacts.

(** ** VfsFile: the stated properties *)

Module VfsFileSpec.

Import Py PyFacts VfsFile VfsFileFacts.

(** *** close *)

(** C1, as the code has it: once [close()] has been called, every
    [read(n)], [seek(offset, whence)] and also [tell()] raises the
    ValueError of a closed file, and a second [close()] returns and
    changes nothing; this for every object, whatever happened to it
    before. *)
Theorem closed_file_calls (fetch : Z -> list bytes) (self : t)
    (size offset whence : Z) :
  exists self' : t,
    close self = Ok (tt, self')
    /\ read size self' = Raise ClosedError
    /\ seek fetch offset whence self' = Raise ClosedError
    /\ tell self' = Raise ClosedError
    /\ close self' = Ok (tt, self').
Proof.
  eexists. split; [reflexivity|]. repeat split.
Qed.

(** C1, as stated, fails: after one byte has been read and the file
    closed, [tell()] does not return the position 1, it raises. *)
Lemma tell_after_close_raises :
  _closed closed_at_one = true
  /\ _pos closed_at_one = 1
  /\ tell closed_at_one = Raise ClosedError
  /\ tell closed_at_one <> Ok (_pos closed_at_one).
Proof.
  repeat split. vm_compute. discriminate.
Qed.

(** *** read *)

(** [read(0)] is [read(-1)]: [size or -1] takes 0 for "no size given". *)
Lemma read_zero_is_read_all (self : t) : read 0 self = read (-1) self.
Proof. reflexivity. Qed.

(** C3 fails at [n = 0]: on a new file over "abcd", [read(0)] returns the
    four bytes, which is more than 0. *)
Theorem read_zero_returns_everything :
  returned (read 0 (__init__ abcd)) = Some (bs "abcd")
  /\ 0 < len (bs "abcd").
Proof. split; reflexivity. Qed.

(** For a positive [n], [read(n)] on an open object returns exactly [n]
    bytes, or all that were left when they are fewer, and then the end
    has been seen. *)
Lemma read_positive_length (size : Z) (self : t) :
  wf self ->
  _closed self = false ->
  0 < size ->
  exists (data : bytes) (self' : t),
    read size self = Ok (data, self')
    /\ len data <= size
    /\ (len data < size -> _eof self' = true /\ data = remaining self).
Proof.
  intros Hwf Hopen Hsize.
  destruct (read_positive size self Hwf Hopen Hsize)
    as (self' & Hrun & _ & _ & _ & Hend).
  exists (firstn (Z.to_nat size) (remaining self)), self'.
  split; [exact Hrun|].
  assert (L : len (firstn (Z.to_nat size) (remaining self))
              = Z.min size (len (remaining self)))
    by (unfold len; rewrite length_firstn; lia).
  rewrite L. split; [lia|]. intros Hlt.
  split; [apply Hend; lia|].
  apply firstn_all2. unfold len in Hlt. lia.
Qed.

(** C4 fails at the split point [(0, 1)]: over "abcd", [read(0)] then
    [read(1)] give "abcd", a single [read(0 + 1)] gives "a". *)
Theorem read_zero_then_one_differs :
  read_then_read abcd 0 1 = Ok (bs "abcd")
  /\ read_once abcd (0 + 1) = Ok (bs "a").
Proof. split; reflexivity. Qed.

(** With both sizes positive the two reads do return what the single
    read returns, whatever [fetch] serves. *)
Lemma read_split_positive (fetch : Z -> list bytes) (n m : Z) :
  0 < n -> 0 < m ->
  read_then_read fetch n m = read_once fetch (n + m)
  /\ read_once fetch (n + m)
     = Ok (firstn (Z.to_nat (n + m)) (List.concat (fetch 0))).
Proof.
  intros Hn Hm. unfold read_then_read, read_once.
  pose proof (init_wf fetch) as Hwf.
  assert (Hopen : _closed (__init__ fetch) = false) by reflexivity.
  assert (Hrem : remaining (__init__ fetch) = List.concat (fetch 0))
    by reflexivity.
  destruct (read_positive n _ Hwf Hopen Hn)
    as (s1 & E1 & Hwf1 & Hopen1 & Hr1 & _).
  destruct (read_positive m s1 Hwf1 Hopen1 Hm) as (s2 & E2 & _).
  destruct (read_positive (n + m) _ Hwf Hopen ltac:(lia)) as (s3 & E3 & _).
  rewrite E1, E3. cbn [bind]. rewrite E2. cbn [bind].
  rewrite Hr1, Hrem.
  replace (Z.to_nat m) with (Z.to_nat (n + m) - Z.to_nat n)%nat by lia.
  rewrite firstn_then_firstn by lia. split; reflexivity.
Qed.

(** *** seek *)

Lemma repositioned_start (new_pos : Z) (self : t) :
  buffer_start_pos (repositioned new_pos self) = buffer_start_pos self.
Proof. unfold buffer_start_pos, repositioned. cbn. lia. Qed.

(** C6, as the code has it: on an open object, a [seek] whose target
    [new_pos] satisfies [buffer_start_pos <= new_pos <= buffer_start_pos +
    len(buffer)] (both bounds included) moves the cursor by
    [new_pos - position], sets the position to [new_pos] and clears
    [_eof]; it does not call [fetch] and leaves the buffer, the generator
    and the closed flag as they were.  A second such [seek] does not call
    [fetch] either. *)
Theorem seek_inside_buffer (fetch : Z -> list bytes) (self : t)
    (o1 w1 o2 w2 : Z) :
  _closed self = false ->
  w1 = SEEK_SET \/ w1 = SEEK_CUR ->
  w2 = SEEK_SET \/ w2 = SEEK_CUR ->
  in_buffer self (seek_target o1 w1 self) ->
  in_buffer self
    (seek_target o2 w2 (repositioned (seek_target o1 w1 self) self)) ->
  let p1 := seek_target o1 w1 self in
  let self1 := repositioned p1 self in
  let p2 := seek_target o2 w2 self1 in
  let self2 := repositioned p2 self1 in
  seek fetch o1 w1 self = Ok (p1, self1)
  /\ _buffer_pos self1 = _buffer_pos self + (p1 - _pos self)
  /\ _pos self1 = p1
  /\ _eof self1 = false
  /\ _buffer self1 = _buffer self
  /\ _data self1 = _data self
  /\ _closed self1 = _closed self
  /\ fetch_calls self1 = fetch_calls self
  /\ next_calls self1 = next_calls self
  /\ seek fetch o2 w2 self1 = Ok (p2, self2)
  /\ _buffer self2 = _buffer self
  /\ _data self2 = _data self
  /\ fetch_calls self2 = fetch_calls self
  /\ next_calls self2 = next_calls self.
Proof.
  intros Hopen Hw1 Hw2 Hin1 Hin2 p1 self1 p2 self2.
  split; [now apply seek_inside|].
  do 8 (split; [reflexivity|]).
  split; [|repeat split].
  apply seek_inside; [exact Hopen | exact Hw2 |].
  unfold in_buffer, self1, p1. rewrite repositioned_start. exact Hin2.
Qed.

Lemma seek_inside_buffer_witness :
  _closed one_byte_read = false
  /\ in_buffer one_byte_read 0
  /\ in_buffer one_byte_read 2
  /\ seek abcd 0 SEEK_SET one_byte_read = Ok (0, repositioned 0 one_byte_read)
  /\ seek abcd 2 SEEK_SET (repositioned 0 one_byte_read)
     = Ok (2, repositioned 2 (repositioned 0 one_byte_read))
  /\ fetch_calls (repositioned 2 (repositioned 0 one_byte_read)) = [0].
Proof.
  assert (H1 : in_buffer one_byte_read 0) by (vm_compute; split; discriminate).
  assert (H2 : in_buffer one_byte_read 2) by (vm_compute; split; discriminate).
  split; [reflexivity|]. split; [exact H1|]. split; [exact H2|].
  pose proof (seek_inside_buffer abcd one_byte_read 0 SEEK_SET 2 SEEK_SET
                eq_refl (or_introl eq_refl) (or_introl eq_refl) H1 H2) as H.
  cbv zeta in H.
  destruct H as (E1 & _ & _ & _ & _ & _ & _ & _ & _ & E2 & _ & _ & F & _).
  split; [exact E1|]. split; [exact E2|]. exact F.
Defined.

(** C6, as stated, fails: a [seek] inside the buffer does not update the
    cursor and the position only.  Once the end of "abcd" has been seen,
    [seek(4)] lies inside the (empty) buffer, and it clears [_eof]. *)
Lemma seek_inside_buffer_clears_eof :
  reachable abcd read_to_the_end
  /\ _closed read_to_the_end = false
  /\ _eof read_to_the_end = true
  /\ in_buffer read_to_the_end 4
  /\ seek abcd 4 SEEK_SET read_to_the_end
     = Ok (4, repositioned 4 read_to_the_end)
  /\ _eof (repositioned 4 read_to_the_end) = false
  /\ seek abcd 4 SEEK_SET read_to_the_end
     <> Ok (4, repositioned_only 4 read_to_the_end).
Proof.
  split.
  { apply (run_reachable abcd [Read (-1)] (__init__ abcd));
      [constructor | reflexivity]. }
  split; [reflexivity|]. split; [reflexivity|].
  split; [vm_compute; split; discriminate|].
  split; [reflexivity|]. split; [reflexivity|].
  vm_compute. discriminate.
Qed.

(** *** The constructor *)

(** What holds between the constructor and the first read: nothing has
    been asked of a generator, the buffer is empty and the generator is
    the one [fetch] returned last. *)
Lemma untouched_step (fetch : Z -> list bytes) (o : op) (self self' : t) :
  reads_nothing o = true ->
  step fetch o self = Ok self' ->
  next_calls self = 0%nat /\ _buffer self = []
  /\ _data self = fetch (last (fetch_calls self) 0) ->
  next_calls self' = 0%nat /\ _buffer self' = []
  /\ _data self' = fetch (last (fetch_calls self') 0).
Proof.
  intros Ho Hstep (Hn & Hb & Hd). apply step_cases in Hstep.
  destruct o; try discriminate.
  - destruct Hstep as [pos H].
    destruct (seek_returns fetch _ _ _ _ _ H) as [Hopen Hw].
    rewrite seek_supported in H by assumption. injection H as _ <-.
    destruct ((_pos self - _buffer_pos self
               <=? seek_target offset whence self)
              && (seek_target offset whence self
                  <=? _pos self - _buffer_pos self + len (_buffer self))).
    + cbn. auto.
    + cbn. rewrite last_last. auto.
  - destruct Hstep as [-> _]. auto.
  - cbn in Hstep. injection Hstep as <-. cbn. auto.
Qed.

(** C7, as the code has it: [VfsFile(fetch)] starts at position 0 with an
    empty buffer, not closed, and it calls [fetch] once, with offset 0, to
    get its generator; but it asks the generator for nothing, and neither
    does any [seek], [tell] or [close] made before the first read. *)
Theorem init_fetches_but_reads_nothing (fetch : Z -> list bytes)
    (os : list op) (self : t) :
  forallb reads_nothing os = true ->
  run fetch os (__init__ fetch) = Ok self ->
  (_pos (__init__ fetch) = 0
   /\ _buffer (__init__ fetch) = []
   /\ _closed (__init__ fetch) = false
   /\ fetch_calls (__init__ fetch) = [0]
   /\ _data (__init__ fetch) = fetch 0
   /\ next_calls (__init__ fetch) = 0%nat)
  /\ next_calls self = 0%nat
  /\ _buffer self = []
  /\ _data self = fetch (last (fetch_calls self) 0).
Proof.
  intros Hos Hrun. split; [repeat split|].
  assert (H0 : next_calls (__init__ fetch) = 0%nat
               /\ _buffer (__init__ fetch) = []
               /\ _data (__init__ fetch)
                  = fetch (last (fetch_calls (__init__ fetch)) 0))
    by (repeat split).
  revert Hos Hrun H0. generalize (__init__ fetch) as s.
  induction os as [|o os IH]; intros s Hos Hrun H0; cbn [run] in Hrun.
  - injection Hrun as <-. exact H0.
  - cbn [forallb] in Hos. apply andb_true_iff in Hos. destruct Hos as [Ho Hos].
    destruct (step fetch o s) as [s1| |] eqn:E; try discriminate.
    cbn [bind] in Hrun.
    exact (IH s1 Hos Hrun (untouched_step fetch o s s1 Ho E H0)).
Qed.

Lemma init_fetches_but_reads_nothing_witness :
  forallb reads_nothing [Seek 3 SEEK_SET; Tell] = true
  /\ run abcd [Seek 3 SEEK_SET; Tell] (__init__ abcd)
     = Ok (state_after abcd [Seek 3 SEEK_SET; Tell])
  /\ next_calls (state_after abcd [Seek 3 SEEK_SET; Tell]) = 0%nat
  /\ fetch_calls (state_after abcd [Seek 3 SEEK_SET; Tell]) = [0; 3].
Proof.
  split; [reflexivity|]. split; [reflexivity|]. split; [|reflexivity].
  exact (proj1 (proj2 (init_fetches_but_reads_nothing abcd
                         [Seek 3 SEEK_SET; Tell] _ eq_refl eq_refl))).
Defined.

(** C7, as stated, fails: [fetch] has been called by the time the
    constructor returns. *)
Lemma init_calls_fetch :
  fetch_calls (__init__ abcd) = [0] /\ fetch_calls (__init__ abcd) <> [].
Proof. split; [reflexivity | discriminate]. Qed.

(** *** read1 *)

(** The two ways [read1] returns: after a second [_read_from_buffer], or
    after the first alone. *)
Lemma read1_cases (size : Z) (self self' : t) (data : bytes) :
  read1 size self = Ok (data, self') ->
  exists (first : bytes) (self1 : t),
    _read_from_buffer size self = (first, self1)
    /\ ((_is_buffer_empty self = false
         /\ (size < 0 \/ len first < size)
         /\ exists more : bytes,
             _read_from_buffer (size - len first) self1 = (more, self')
             /\ data = first ++ more)
        \/ ((_is_buffer_empty self = true
             \/ (0 <= size /\ size <= len first))
            /\ data = first /\ self' = self1)).
Proof.
  intros H. pose proof (returning_read1 _ _ _ _ H) as Hopen.
  rewrite open_read1 in H by assumption. cbv zeta in H.
  destruct (_read_from_buffer size self) as [first self1].
  exists first, self1. split; [reflexivity|].
  destruct (_is_buffer_empty self); cbn [negb andb] in H.
  - injection H as <- <-. right. auto.
  - destruct (Z.ltb_spec size 0); cbn [orb] in H.
    + destruct (_read_from_buffer (size - len first) self1) as [more self2].
      injection H as <- <-. left. split; [reflexivity|]. split; [now left|].
      now exists more.
    + destruct (Z.ltb_spec (len first) size).
      * destruct (_read_from_buffer (size - len first) self1)
          as [more self2].
        injection H as <- <-. left. split; [reflexivity|].
        split; [now right|]. now exists more.
      * injection H as <- <-. right. split; [right; lia | auto].
Qed.





(** *** The invariants *)

(** Every call that returns leaves the cursor within the buffer, and a
    non-negative position non-negative unless it is a [seek] to a negative
    target. *)
Lemma step_buffer_inv (fetch : Z -> list bytes) (o : op) (self self' : t) :
  buffer_inv self ->
  step fetch o self = Ok self' ->
  buffer_inv self'
  /\ (0 <= _pos self ->
      (forall offset whence : Z,
          o = Seek offset whence -> 0 <= seek_target offset whence self) ->
      0 <= _pos self').
Proof.
  intros Hb H. apply step_cases in H. destruct o.
  - destruct H as [data H]. apply returning_read in H. destruct H as [_ H].
    destruct (read_loop_buffer_inv _ _ _ _ _ _ Hb H). split; [assumption|lia].
  - destruct H as [data H].
    pose proof (returning_read1 _ _ _ _ H) as Hopen.
    destruct (read1_spec size self Hb Hopen)
      as (d & s & E & Hb' & _ & _ & Hp & _).
    assert (s = self') by congruence. subst s.
    pose proof (len_nonneg d). split; [assumption|lia].
  - destruct H as [r H]. apply returning_readinto1 in H.
    destruct H as [data H].
    pose proof (returning_read1 _ _ _ _ H) as Hopen.
    destruct (read1_spec (len b) self Hb Hopen)
      as (d & s & E & Hb' & _ & _ & Hp & _).
    assert (s = self') by congruence. subst s.
    pose proof (len_nonneg d). split; [assumption|lia].
  - destruct H as [pos H].
    destruct (seek_wf fetch _ _ _ _ _ Hb H) as ([Hb' _] & -> & Hp & _).
    split; [assumption|]. intros _ Htarget. rewrite Hp.
    now apply Htarget.
  - destruct H as [-> _]. auto.
  - cbn in H. injection H as <-. split; [exact Hb | auto].
Qed.

(** C9, as the code has it: the cursor of every object a client can hold
    lies within the buffer, [0 <= _buffer_pos <= len(_buffer)], and every
    call that returns ([read], [read1], [readinto1], [seek], [tell],
    [close]) keeps it there.  Such a call leaves a non-negative position
    non-negative too, provided that it is not a [seek] to a negative
    target. *)
Theorem calls_preserve_invariants (fetch : Z -> list bytes) (o : op)
    (self self' : t) :
  reachable fetch self ->
  step fetch o self = Ok self' ->
  buffer_inv self
  /\ buffer_inv self'
  /\ (0 <= _pos self ->
      (forall offset whence : Z,
          o = Seek offset whence -> 0 <= seek_target offset whence self) ->
      0 <= _pos self').
Proof.
  intros Hr H. destruct (reachable_wf fetch self Hr) as [Hb _].
  split; [exact Hb|]. exact (step_buffer_inv fetch o self self' Hb H).
Qed.

Lemma calls_preserve_invariants_witness :
  reachable abcd one_byte_read
  /\ step abcd (Seek (-1) SEEK_CUR) one_byte_read
     = Ok (state_after abcd [Read1 1; Seek (-1) SEEK_CUR])
  /\ buffer_inv (state_after abcd [Read1 1; Seek (-1) SEEK_CUR])
  /\ 0 <= _pos (state_after abcd [Read1 1; Seek (-1) SEEK_CUR]).
Proof.
  assert (Hr : reachable abcd one_byte_read).
  { apply (run_reachable abcd [Read1 1] (__init__ abcd));
      [constructor | reflexivity]. }
  split; [exact Hr|]. split; [reflexivity|].
  destruct (calls_preserve_invariants abcd (Seek (-1) SEEK_CUR) one_byte_read
              _ Hr eq_refl) as (_ & Hb' & Hp).
  split; [exact Hb'|]. apply Hp; [vm_compute; discriminate|].
  intros offset whence E. injection E as <- <-. vm_compute. discriminate.
Defined.

(** C9, as stated, fails: [seek(-5)] on a new file is accepted, and
    leaves the position at -5. *)
Lemma seek_to_a_negative_position :
  reachable abcd (__init__ abcd)
  /\ 0 <= _pos (__init__ abcd)
  /\ step abcd (Seek (-5) SEEK_SET) (__init__ abcd)
     = Ok (state_after abcd [Seek (-5) SEEK_SET])
  /\ _pos (state_after abcd [Seek (-5) SEEK_SET]) = -5
  /\ ~ 0 <= _pos (state_after abcd [Seek (-5) SEEK_SET]).
Proof.
  split; [constructor|]. split; [vm_compute; discriminate|].
  split; [reflexivity|]. split; [reflexivity|].
  vm_compute. intros H. now apply H.
Qed.

(** *** readinto1 *)



(** On a bytearray [readinto1_writable] is [readinto1]. *)
Lemma readinto1_writable_bytearray (items : bytes) (self : t) :
  readinto1_writable (Bytearray items) self
  = ('(r, self) <- readinto1 items self ;;
     Ok (Stored (fst r) (Bytearray (snd r)), self)).
Proof.
  unfold readinto1_writable, readinto1.
  destruct (_ensure_not_closed self); [|reflexivity|reflexivity].
  cbn [bind items_of]. destruct (read1 (len items) self) as [[d s]| |];
    reflexivity.
Qed.


(** The same call, evaluated: three bytes go into "wxyz". *)
Example readinto1_wxyz :
  returned (readinto1 (bs "wxyz") one_byte_read) = Some (3, bs "bcdz").
Proof. reflexivity. Qed.

End VfsFileSpec.

(** ** VFS.ls *)

Module VFSFacts.

Import VFS.

Section WithClient.

Variable c : Client.

(** [ls] as it is written, with [max_depth] an integer. *)
Lemma ls_calls_unfold (path : string) (max_depth : Z) :
  ls_calls c path max_depth
  = if max_depth <? 1 then ([], Ok [])
    else
      let p := get_vfs_path path in
      match File_Get c p with
      | AccessForbiddenError e =>
          ([CallGet p (Some e)],
           Raise (ApprovalMissingError (client_id c) e))
      | Returns f =>
          if negb (is_directory f) then
            ([CallGet p None], Raise (NotDirectoryError (client_id c) path))
          else
            match ListFiles f with
            | AccessForbiddenError e =>
                ([CallGet p None; CallListFiles p (Some e)],
                 Raise (ApprovalMissingError (client_id c) e))
            | Returns stat_entries =>
                let '(calls, r) :=
                  ls_loop (fun q => ls_calls c q (max_depth - 1))
                    stat_entries [] in
                ([CallGet p None; CallListFiles p None] ++ calls,
                 match r with
                 | Ok inner_entries => Ok (stat_entries ++ inner_entries)
                 | Raise e => Raise e
                 end)
            end
      end.
Proof.
  unfold ls_calls. destruct (Z.ltb_spec max_depth 1) as [H|H].
  - replace (Z.to_nat max_depth) with 0%nat by lia. reflexivity.
  - replace (Z.to_nat max_depth) with (S (Z.to_nat (max_depth - 1))) by lia.
    reflexivity.
Qed.

(** Below depth 1 nothing is listed and the client is not called. *)
Lemma ls_below_one (path : string) (max_depth : Z) :
  max_depth < 1 -> ls_calls c path max_depth = ([], Ok []).
Proof.
  intros H. rewrite ls_calls_unfold.
  destruct (Z.ltb_spec max_depth 1); [reflexivity | lia].
Qed.

(** The loop over the children: it ends with every child's listing
    appended, in order, unless a child's listing raised something else
    than NotDirectoryError, which is then what the loop raises. *)
Lemma ls_loop_result (rec : string -> list call * result)
    (stat_entries : list StatEntry) :
  forall inner_entries : list StatEntry,
    match snd (ls_loop rec stat_entries inner_entries) with
    | Ok r =>
        r = inner_entries ++ flat_map (below rec) stat_entries
        /\ Forall (fun entry =>
                     forall cid e,
                       snd (rec (pathspec_path entry))
                       <> Raise (ApprovalMissingError cid e))
             stat_entries
    | Raise (ApprovalMissingError cid e) =>
        Exists (fun entry =>
                  snd (rec (pathspec_path entry))
                  = Raise (ApprovalMissingError cid e))
          stat_entries
    | Raise (NotDirectoryError _ _) => False
    end.
Proof.
  induction stat_entries as [|entry rest IH]; intros inner_entries.
  - cbn. rewrite app_nil_r. auto.
  - cbn [ls_loop flat_map]. unfold below at 1.
    destruct (rec (pathspec_path entry)) as [calls r] eqn:E.
    destruct r as [sub|[cid p|cid e]]; cbn [snd].
    + specialize (IH (inner_entries ++ sub)).
      destruct (ls_loop rec rest (inner_entries ++ sub)) as [calls' r'].
      cbn [snd] in *. destruct r' as [r'|[cid p|cid e]].
      * destruct IH as [-> IH]. rewrite app_assoc. split; [reflexivity|].
        constructor; [rewrite E; discriminate | exact IH].
      * exact IH.
      * now apply Exists_cons_tl.
    + specialize (IH (inner_entries ++ [])).
      destruct (ls_loop rec rest (inner_entries ++ [])) as [calls' r'].
      cbn [snd] in *. destruct r' as [r'|[cid' p'|cid' e]].
      * destruct IH as [-> IH]. rewrite app_nil_r. split; [reflexivity|].
        constructor; [rewrite E; discriminate | exact IH].
      * exact IH.
      * now apply Exists_cons_tl.
    + apply Exists_cons_hd. now rewrite E.
Qed.

Lemma ls_loop_log (rec : string -> list call * result)
    (stat_entries : list StatEntry) :
  (forall p, sound_log c (rec p)) ->
  forall inner_entries,
    sound_log c (ls_loop rec stat_entries inner_entries).
Proof.
  intros Hrec.
  induction stat_entries as [|entry rest IH]; intros inner_entries.
  - constructor.
  - cbn [ls_loop]. specialize (Hrec (pathspec_path entry)).
    destruct (rec (pathspec_path entry)) as [calls r].
    assert (Hnext : forall inner,
               all_returned calls ->
               sound_log c (let '(calls', r') := ls_loop rec rest inner in
                          (calls ++ calls', r'))).
    { intros inner Hcalls. specialize (IH inner).
      destruct (ls_loop rec rest inner) as [calls' r'].
      unfold sound_log in *. cbn [fst snd] in *.
      destruct r' as [r'|[cid p|cid e]].
      - now apply Forall_app.
      - now apply Forall_app.
      - destruct IH as (-> & calls0 & last & -> & H0 & Hl).
        split; [reflexivity|]. exists (calls ++ calls0), last.
        rewrite app_assoc. split; [reflexivity|].
        split; [now apply Forall_app | exact Hl]. }
    destruct r as [sub|[cid p|cid e]].
    + apply Hnext. exact Hrec.
    + apply Hnext. exact Hrec.
    + exact Hrec.
Qed.

Lemma ls_depth_log (depth : nat) :
  forall path : string, sound_log c (ls_depth c depth path).
Proof.
  induction depth as [|depth IH]; intros path.
  - constructor.
  - cbn [ls_depth].
    destruct (File_Get c (get_vfs_path path)) as [f|e].
    2: { split; [reflexivity|].
         exists [], (CallGet (get_vfs_path path) (Some e)).
         repeat split. constructor. }
    destruct (is_directory f); cbn [negb].
    2: { repeat constructor. }
    destruct (ListFiles f) as [stat_entries|e].
    2: { split; [reflexivity|].
         exists [CallGet (get_vfs_path path) None],
           (CallListFiles (get_vfs_path path) (Some e)).
         repeat split. repeat constructor. }
    pose proof (ls_loop_log (ls_depth c depth) stat_entries IH []) as H.
    destruct (ls_loop (ls_depth c depth) stat_entries []) as [calls r].
    unfold sound_log in *. cbn [fst snd] in *.
    destruct r as [r|[cid p|cid e]].
    + repeat constructor. exact H.
    + repeat constructor. exact H.
    + destruct H as (-> & calls0 & last & -> & H0 & Hl).
      split; [reflexivity|].
      exists ([CallGet (get_vfs_path path) None;
               CallListFiles (get_vfs_path path) None] ++ calls0), last.
      split; [reflexivity|]. split; [|exact Hl].
      repeat constructor. exact H0.
Qed.

End WithClient.

End VFSFacts.

(** ** VFS.ls: the stated properties *)

Module VFSSpec.

Import VFS VFSFacts.

(** What [ls] returns for a directory whose children can be listed. *)
Lemma ls_of_directory (c : Client) (path : string) (max_depth : Z)
    (f : ApiFile) (stat_entries : list StatEntry) :
  1 <= max_depth ->
  File_Get c (get_vfs_path path) = Returns f ->
  is_directory f = true ->
  ListFiles f = Returns stat_entries ->
  ls c path max_depth
  = match
      snd (ls_loop (ls_depth c (Z.to_nat (max_depth - 1))) stat_entries [])
    with
    | Ok inner_entries => Ok (stat_entries ++ inner_entries)
    | Raise e => Raise e
    end.
Proof.
  intros Hd Hget Hdir Hlist. unfold ls, ls_calls.
  replace (Z.to_nat max_depth) with (S (Z.to_nat (max_depth - 1))) by lia.
  cbn [ls_depth]. rewrite Hget, Hdir. cbn [negb]. rewrite Hlist.
  now destruct (ls_loop (ls_depth c (Z.to_nat (max_depth - 1)))
                  stat_entries []).
Qed.

(** A listing that returned was the listing of a directory. *)
Lemma returning_ls (c : Client) (path : string) (max_depth : Z)
    (entries : list StatEntry) :
  1 <= max_depth ->
  ls c path max_depth = Ok entries ->
  exists (f : ApiFile) (stat_entries : list StatEntry),
    File_Get c (get_vfs_path path) = Returns f
    /\ is_directory f = true
    /\ ListFiles f = Returns stat_entries.
Proof.
  intros Hd. unfold ls, ls_calls.
  replace (Z.to_nat max_depth) with (S (Z.to_nat (max_depth - 1))) by lia.
  cbn [ls_depth].
  destruct (File_Get c (get_vfs_path path)) as [f|e]; [|discriminate].
  destruct (is_directory f) eqn:Hdir; [|discriminate]. cbn [negb].
  destruct (ListFiles f) as [stat_entries|e] eqn:Hlist; [|discriminate].
  intros _. now exists f, stat_entries.
Qed.

(** C2, as the code has it: what [ls(path, max_depth)] returns, for
    [max_depth >= 1], is the entries of the children of [path], in the
    order of [ListFiles], followed by what [ls(child, max_depth - 1)]
    returns for each child in turn (nothing for a child that is not a
    directory).  So the parent level comes first as a whole, and the
    listing of a child comes after the entries of all its siblings. *)
Theorem ls_parent_level_first (c : Client) (path : string) (max_depth : Z)
    (entries : list StatEntry) :
  1 <= max_depth ->
  ls c path max_depth = Ok entries ->
  exists (f : ApiFile) (stat_entries : list StatEntry),
    File_Get c (get_vfs_path path) = Returns f
    /\ is_directory f = true
    /\ ListFiles f = Returns stat_entries
    /\ entries
       = stat_entries
         ++ flat_map (descend c (Z.to_nat (max_depth - 1))) stat_entries
    /\ firstn (List.length stat_entries) entries = stat_entries
    /\ Forall (fun entry =>
                 forall cid e,
                   ls c (pathspec_path entry) (max_depth - 1)
                   <> Raise (ApprovalMissingError cid e))
         stat_entries.
Proof.
  intros Hd Hls.
  destruct (returning_ls c path max_depth entries Hd Hls)
    as (f & stat_entries & Hget & Hdir & Hlist).
  exists f, stat_entries. do 3 (split; [assumption|]).
  rewrite (ls_of_directory c path max_depth f stat_entries) in Hls
    by assumption.
  pose proof (ls_loop_result (ls_depth c (Z.to_nat (max_depth - 1)))
                stat_entries []) as H.
  destruct (snd (ls_loop (ls_depth c (Z.to_nat (max_depth - 1)))
                   stat_entries [])) as [inner|err]; [|discriminate].
  injection Hls as <-. destruct H as [-> H]. cbn [app].
  split; [reflexivity|]. split; [|exact H].
  rewrite firstn_app, Nat.sub_diag, firstn_all. cbn. apply app_nil_r.
Qed.

Lemma ls_parent_level_first_witness :
  1 <= 2
  /\ ls tree "/" 2
     = Ok (map stat ["/a"; "/f"; "/b"; "/a/x"; "/b/y"]%string)
  /\ exists (f : ApiFile) (stat_entries : list StatEntry),
      File_Get tree (get_vfs_path "/") = Returns f
      /\ is_directory f = true
      /\ ListFiles f = Returns stat_entries
      /\ map stat ["/a"; "/f"; "/b"; "/a/x"; "/b/y"]%string
         = stat_entries
           ++ flat_map (descend tree (Z.to_nat (2 - 1))) stat_entries
      /\ firstn (List.length stat_entries)
           (map stat ["/a"; "/f"; "/b"; "/a/x"; "/b/y"]%string)
         = stat_entries
      /\ Forall (fun entry =>
                   forall cid e,
                     ls tree (pathspec_path entry) (2 - 1)
                     <> Raise (ApprovalMissingError cid e))
           stat_entries.
Proof.
  split; [lia|]. split; [reflexivity|].
  apply (ls_parent_level_first tree "/" 2); [lia | reflexivity].
Defined.

(** C2, as stated, fails: in [ls("/", 2)] the entry of [/a] is not
    followed by the entry of [/a/x] below it, but by those of its
    siblings [/f] and [/b]; the listing is not the pre-order one. *)
Lemma ls_is_not_preorder :
  ls tree "/" 2 = Ok (map stat ["/a"; "/f"; "/b"; "/a/x"; "/b/y"]%string)
  /\ preorder tree 2 "/" = map stat ["/a"; "/a/x"; "/f"; "/b"; "/b/y"]%string
  /\ ls tree "/" 2 <> Ok (preorder tree 2 "/").
Proof.
  split; [reflexivity|]. split; [reflexivity|]. vm_compute. discriminate.
Qed.

(** C5: in [ls(path, max_depth)] with [max_depth > 1], a child whose
    listing raises NotDirectoryError adds nothing and does not stop the
    loop: if no child's listing raises ApprovalMissingError, [ls] returns
    the children followed by the listings of those that could be listed.
    And a forbidden call to the API client, at whatever depth it is made,
    makes the top-level [ls] raise ApprovalMissingError with what the call
    raised. *)
Theorem ls_absorbs_only_not_directory (c : Client) (path : string)
    (max_depth : Z) :
  1 < max_depth ->
  (forall (f : ApiFile) (stat_entries : list StatEntry),
      File_Get c (get_vfs_path path) = Returns f ->
      is_directory f = true ->
      ListFiles f = Returns stat_entries ->
      Forall (fun entry =>
                forall cid e,
                  ls c (pathspec_path entry) (max_depth - 1)
                  <> Raise (ApprovalMissingError cid e))
        stat_entries ->
      ls c path max_depth
      = Ok (stat_entries
            ++ flat_map (descend c (Z.to_nat (max_depth - 1))) stat_entries)
      /\ forall entry cid p,
          In entry stat_entries ->
          ls c (pathspec_path entry) (max_depth - 1)
          = Raise (NotDirectoryError cid p) ->
          descend c (Z.to_nat (max_depth - 1)) entry = [])
  /\ (forall (call : call) (e : string),
         In call (fst (ls_calls c path max_depth)) ->
         forbidden call = Some e ->
         ls c path max_depth = Raise (ApprovalMissingError (client_id c) e)).
Proof.
  intros Hd. split.
  - intros f stat_entries Hget Hdir Hlist Hall.
    rewrite (ls_of_directory c path max_depth f stat_entries)
      by (assumption || lia).
    pose proof (ls_loop_result (ls_depth c (Z.to_nat (max_depth - 1)))
                  stat_entries []) as H.
    destruct (snd (ls_loop (ls_depth c (Z.to_nat (max_depth - 1)))
                     stat_entries [])) as [inner|[cid p|cid e]].
    + destruct H as [-> _]. split; [reflexivity|].
      intros entry cid p _ E. unfold descend, below.
      unfold ls, ls_calls in E. now rewrite E.
    + contradiction.
    + exfalso. apply Exists_exists in H. destruct H as (entry & Hin & E).
      rewrite Forall_forall in Hall. exact (Hall entry Hin cid e E).
  - intros call e Hin Hforb. unfold ls.
    pose proof (ls_depth_log c (Z.to_nat max_depth) path) as H.
    unfold sound_log in H. fold (ls_calls c path max_depth) in H.
    destruct (ls_calls c path max_depth) as [calls r].
    cbn [fst snd] in *.
    assert (Hnone : all_returned calls -> False).
    { intros Hall. unfold all_returned in Hall.
      rewrite Forall_forall in Hall. specialize (Hall call Hin).
      congruence. }
    destruct r as [r|[cid p|cid e']]; try contradiction.
    destruct H as (-> & calls0 & last & -> & H0 & Hl).
    apply in_app_or in Hin. destruct Hin as [Hin|[<-|[]]].
    + unfold all_returned in H0. rewrite Forall_forall in H0.
      specialize (H0 call Hin). congruence.
    + congruence.
Qed.

Lemma ls_absorbs_only_not_directory_witness :
  1 < 2
  /\ ls tree "/f" (2 - 1) = Raise (NotDirectoryError "C.1" "/f")
  /\ ls tree "/" 2
     = Ok (map stat ["/a"; "/f"; "/b"; "/a/x"; "/b/y"]%string)
  /\ In (CallListFiles "fs/os/b" (Some "no approval"%string))
       (fst (ls_calls guarded_tree "/" 2))
  /\ ls guarded_tree "/" 2
     = Raise (ApprovalMissingError "C.1" "no approval").
Proof.
  split; [lia|]. split; [reflexivity|]. split; [reflexivity|].
  split; [vm_compute; tauto|].
  apply (proj2 (ls_absorbs_only_not_directory guarded_tree "/" 2 ltac:(lia))
           (CallListFiles "fs/os/b" (Some "no approval"%string))).
  - vm_compute. tauto.
  - reflexivity.
Defined.

End VFSSpec.

(** * Further properties *)

(** ** VfsFile: what the reads return *)

Module VfsFileExtra.

Import Py PyFacts VfsFile VfsFileFacts.

(** [read] and [read1] move the position on by the number of bytes they
    return: [tell()] after the call is [tell()] before it plus
    [len(data)]. *)
Theorem reads_advance_position (fetch : Z -> list bytes) (size : Z)
    (self self' : t) (data : bytes) :
  reachable fetch self ->
  read size self = Ok (data, self') \/ read1 size self = Ok (data, self') ->
  tell self' = Ok (_pos self + len data).
Proof.
  intros Hr H. pose proof (reachable_wf fetch self Hr) as Hwf.
  destruct H as [H|H].
  - destruct (returning_read _ _ _ _ H) as [Hopen _].
    destruct (read_spec size self Hwf Hopen)
      as (d & s & E & _ & _ & _ & _ & Hp & Hc & _).
    rewrite E in H. injection H as -> ->.
    rewrite open_tell by assumption. now rewrite Hp.
  - pose proof (returning_read1 _ _ _ _ H) as Hopen. destruct Hwf as [Hb _].
    destruct (read1_spec size self Hb Hopen)
      as (d & s & E & _ & _ & _ & Hp & Hc & _).
    rewrite E in H. injection H as -> ->.
    rewrite open_tell by assumption. now rewrite Hp.
Qed.

Lemma reads_advance_position_witness :
  reachable abcd one_byte_read
  /\ read 2 one_byte_read = Ok (bs "bc", state_after abcd [Read1 1; Read 2])
  /\ tell (state_after abcd [Read1 1; Read 2]) = Ok (1 + 2).
Proof.
  assert (Hr : reachable abcd one_byte_read).
  { apply (run_reachable abcd [Read1 1] (__init__ abcd));
      [constructor | reflexivity]. }
  split; [exact Hr|]. split; [reflexivity|].
  exact (reads_advance_position abcd 2 one_byte_read _ (bs "bc") Hr
           (or_introl eq_refl)).
Defined.

(** [read] and [read1] return, and what they return is the start of the
    bytes that were left (the rest of the buffer, then the chunks to come):
    nothing is skipped, repeated or reordered, and what is left after the
    call is the rest. *)
Theorem reads_return_what_was_left (fetch : Z -> list bytes) (size : Z)
    (self : t) :
  reachable fetch self ->
  _closed self = false ->
  (exists (data : bytes) (self' : t),
      read size self = Ok (data, self')
      /\ remaining self = data ++ remaining self')
  /\ (exists (data : bytes) (self' : t),
         read1 size self = Ok (data, self')
         /\ remaining self = data ++ remaining self').
Proof.
  intros Hr Hopen. pose proof (reachable_wf fetch self Hr) as Hwf. split.
  - destruct (read_spec size self Hwf Hopen) as (d & s & E & _ & Hrem & _).
    now exists d, s.
  - destruct Hwf as [Hb _].
    destruct (read1_spec size self Hb Hopen)
      as (d & s & E & _ & _ & _ & _ & _ & _ & _ & Hrem).
    now exists d, s.
Qed.

Lemma reads_return_what_was_left_witness :
  reachable abcd one_byte_read
  /\ _closed one_byte_read = false
  /\ remaining one_byte_read = bs "bcd"
  /\ (exists (data : bytes) (self' : t),
         read 2 one_byte_read = Ok (data, self')
         /\ remaining one_byte_read = data ++ remaining self').
Proof.
  assert (Hr : reachable abcd one_byte_read).
  { apply (run_reachable abcd [Read1 1] (__init__ abcd));
      [constructor | reflexivity]. }
  split; [exact Hr|]. split; [reflexivity|]. split; [reflexivity|].
  exact (proj1 (reads_return_what_was_left abcd 2 one_byte_read Hr eq_refl)).
Defined.

(** What [VfsFile(fetch).read(n)] returns: the first [n] bytes of the
    chunks of [fetch(0)] put together when [n] is positive, all of them
    otherwise. *)
Lemma read_once_eq (fetch : Z -> list bytes) (n : Z) :
  read_once fetch n
  = Ok (if 0 <? n then firstn (Z.to_nat n) (List.concat (fetch 0))
        else List.concat (fetch 0)).
Proof.
  unfold read_once. pose proof (init_wf fetch) as Hwf.
  assert (Hopen : _closed (__init__ fetch) = false) by reflexivity.
  assert (Hrem : remaining (__init__ fetch) = List.concat (fetch 0))
    by reflexivity.
  destruct (Z.ltb_spec 0 n) as [Hn|Hn].
  - destruct (read_positive n _ Hwf Hopen Hn) as (s & E & _).
    rewrite E. cbn [bind]. now rewrite Hrem.
  - destruct (read_to_end n _ Hwf Hopen Hn) as (s & E & _).
    rewrite E. cbn [bind]. now rewrite Hrem.
Qed.

(** What a new file reads does not depend on how the source cuts the
    content into chunks: two fetch functions whose chunks from offset 0 put
    together are the same bytes give the same [read(n)], for every [n]. *)
Theorem read_ignores_chunking (fetch1 fetch2 : Z -> list bytes) (n : Z) :
  List.concat (fetch1 0) = List.concat (fetch2 0) ->
  read_once fetch1 n = read_once fetch2 n.
Proof.
  intros H. rewrite !read_once_eq. now rewrite H.
Qed.

Lemma read_ignores_chunking_witness :
  List.concat (abcd 0) = List.concat (abcd_in_one_chunk 0)
  /\ read_once abcd 3 = read_once abcd_in_one_chunk 3.
Proof.
  split; [reflexivity|].
  exact (read_ignores_chunking abcd abcd_in_one_chunk 3 eq_refl).
Defined.

(** Once the end has been seen ([_eof] set), [read] and [read1] return no
    byte and leave the object as it is; they do not ask the generator
    again. *)
Lemma reads_at_eof (m : Z) (self : t) :
  wf self ->
  _closed self = false ->
  _eof self = true ->
  read m self = Ok ([], self) /\ read1 m self = Ok ([], self).
Proof.
  intros [Hb He] Hopen Eof. split.
  - unfold read, _ensure_not_closed, closed. rewrite Hopen. cbn [bind].
    apply read_loop_exit. now rewrite Eof.
  - destruct (He Eof) as [Hbuf Hdata]. unfold buffer_inv in Hb.
    rewrite Hbuf in Hb. change (len (@nil Byte.byte)) with 0 in Hb.
    assert (Hbp : _buffer_pos self = 0) by lia.
    destruct self as [d b bp p e c fc nc]. cbn in *. subst.
    unfold read1, _ensure_not_closed, closed, _read_from_buffer,
      _is_buffer_empty, _load_buffer.
    cbn -[Z.add Z.sub Z.min Z.ltb].
    destruct (Z.ltb_spec (Z.min m (0 - 0)) 0).
    + cbn. now rewrite Z.add_0_r.
    + assert (E : Z.min m (0 - 0) = 0) by lia. rewrite E.
      cbn. now rewrite Z.add_0_r.
Qed.

(** [read()] (a size that is negative, or 0) returns all the bytes that
    were left, and after it every [read(m)] and [read1(m)] returns [b'']
    and changes nothing. *)
Theorem nothing_after_read_to_end (fetch : Z -> list bytes) (size m : Z)
    (self : t) :
  reachable fetch self ->
  _closed self = false ->
  size <= 0 ->
  exists self' : t,
    read size self = Ok (remaining self, self')
    /\ read m self' = Ok ([], self')
    /\ read1 m self' = Ok ([], self').
Proof.
  intros Hr Hopen Hsize. pose proof (reachable_wf fetch self Hr) as Hwf.
  destruct (read_to_end size self Hwf Hopen Hsize)
    as (self' & E & Hwf' & Hopen' & Eof).
  exists self'. split; [exact E|].
  exact (reads_at_eof m self' Hwf' Hopen' Eof).
Qed.

Lemma nothing_after_read_to_end_witness :
  reachable abcd one_byte_read
  /\ _closed one_byte_read = false
  /\ -1 <= 0
  /\ exists self' : t,
      read (-1) one_byte_read = Ok (remaining one_byte_read, self')
      /\ read 5 self' = Ok ([], self')
      /\ read1 5 self' = Ok ([], self').
Proof.
  assert (Hr : reachable abcd one_byte_read).
  { apply (run_reachable abcd [Read1 1] (__init__ abcd));
      [constructor | reflexivity]. }
  split; [exact Hr|]. split; [reflexivity|]. split; [lia|].
  exact (nothing_after_read_to_end abcd (-1) 5 one_byte_read Hr eq_refl
           ltac:(lia)).
Defined.

(** ** VfsFile: seek, once more *)

(** A [seek] whose target lies outside the buffer calls [fetch] once, with
    the target, and drops the buffer without asking the new generator for
    anything; the [read(n)] that follows, [n] positive, returns the first
    [n] bytes of what [fetch(target)] serves. *)
Theorem seek_outside_buffer_refetches (fetch : Z -> list bytes)
    (offset whence n : Z) (self : t) :
  _closed self = false ->
  whence = SEEK_SET \/ whence = SEEK_CUR ->
  ~ in_buffer self (seek_target offset whence self) ->
  0 < n ->
  exists self1 self2 : t,
    seek fetch offset whence self = Ok (seek_target offset whence self, self1)
    /\ fetch_calls self1
       = fetch_calls self ++ [seek_target offset whence self]
    /\ next_calls self1 = next_calls self
    /\ _buffer self1 = []
    /\ read n self1
       = Ok (firstn (Z.to_nat n)
               (List.concat (fetch (seek_target offset whence self))),
             self2)
    /\ fetch_calls self2 = fetch_calls self1.
Proof.
  intros Hopen Hw Hout Hn.
  set (new_pos := seek_target offset whence self).
  pose proof (refetched_wf fetch new_pos self) as Hwf.
  assert (Hopen1 : _closed (refetched fetch new_pos self) = false)
    by exact Hopen.
  destruct (read_spec n _ Hwf Hopen1)
    as (d & self2 & E & _ & _ & _ & _ & _ & _ & Hf & _).
  destruct (read_positive n _ Hwf Hopen1 Hn) as (s2 & E' & _).
  assert (Hd : (d, self2)
               = (firstn (Z.to_nat n)
                    (remaining (refetched fetch new_pos self)), s2))
    by congruence.
  injection Hd as -> <-.
  exists (refetched fetch new_pos self), self2.
  split; [now apply seek_outside|].
  do 3 (split; [reflexivity|]). split; [exact E | exact Hf].
Qed.

Lemma seek_outside_buffer_refetches_witness :
  _closed one_byte_read = false
  /\ ~ in_buffer one_byte_read (seek_target 3 SEEK_SET one_byte_read)
  /\ exists self1 self2 : t,
      seek abcd 3 SEEK_SET one_byte_read = Ok (3, self1)
      /\ fetch_calls self1 = [0; 3]
      /\ read 5 self1 = Ok (bs "d", self2).
Proof.
  assert (Hout : ~ in_buffer one_byte_read (seek_target 3 SEEK_SET one_byte_read)).
  { vm_compute. intros [_ H]. now apply H. }
  split; [reflexivity|]. split; [exact Hout|].
  destruct (seek_outside_buffer_refetches abcd 3 SEEK_SET 5 one_byte_read
              eq_refl (or_introl eq_refl) Hout ltac:(lia))
    as (self1 & self2 & E1 & F1 & _ & _ & E2 & _).
  exists self1, self2. split; [exact E1|]. split; [exact F1 | exact E2].
Defined.

(** [seek] checks that the file is open before it looks at [whence]: with
    a [whence] that is neither SEEK_SET nor SEEK_CUR it raises
    UnsupportedOperation on an open file and the ValueError of a closed
    file on a closed one, whatever the offset; [fetch] is not called. *)
Theorem seek_rejects_other_whence (fetch : Z -> list bytes)
    (offset whence : Z) (self : t) :
  whence <> SEEK_SET ->
  whence <> SEEK_CUR ->
  seek fetch offset whence self
  = Raise (if _closed self then ClosedError else UnsupportedOperation whence).
Proof.
  intros H0 H1. destruct (_closed self) eqn:Hc.
  - unfold seek, _ensure_not_closed, closed. now rewrite Hc.
  - now apply seek_unsupported.
Qed.

Lemma seek_rejects_other_whence_witness :
  2 <> SEEK_SET
  /\ 2 <> SEEK_CUR
  /\ seek abcd (-1) 2 one_byte_read = Raise (UnsupportedOperation 2)
  /\ seek abcd (-1) 2 closed_at_one = Raise ClosedError.
Proof.
  split; [discriminate|]. split; [discriminate|]. split.
  - exact (seek_rejects_other_whence abcd (-1) 2 one_byte_read
             ltac:(discriminate) ltac:(discriminate)).
  - exact (seek_rejects_other_whence abcd (-1) 2 closed_at_one
             ltac:(discriminate) ltac:(discriminate)).
Defined.

(** Seeking to where the file already is ([seek(0, SEEK_CUR)] or
    [seek(tell())]) never calls [fetch] and loses nothing: the position
    and the bytes still to be read are as before. *)
Theorem seek_to_current_position (fetch : Z -> list bytes) (self : t) :
  reachable fetch self ->
  _closed self = false ->
  exists self' : t,
    seek fetch 0 SEEK_CUR self = Ok (_pos self, self')
    /\ seek fetch (_pos self) SEEK_SET self = Ok (_pos self, self')
    /\ fetch_calls self' = fetch_calls self
    /\ next_calls self' = next_calls self
    /\ _pos self' = _pos self
    /\ remaining self' = remaining self.
Proof.
  intros Hr Hopen. destruct (reachable_wf fetch self Hr) as [Hb _].
  assert (Hin : in_buffer self (_pos self)).
  { unfold in_buffer, buffer_start_pos, buffer_inv in *. lia. }
  exists (repositioned (_pos self) self).
  assert (E0 : seek_target 0 SEEK_CUR self = _pos self)
    by (unfold seek_target; cbn; lia).
  split.
  { rewrite seek_inside; [now rewrite E0 | assumption | now right |].
    now rewrite E0. }
  split; [apply (seek_inside fetch (_pos self) SEEK_SET self);
          [assumption | now left | exact Hin]|].
  do 3 (split; [reflexivity|]).
  unfold remaining, repositioned. cbn [_buffer_pos _buffer _data].
  now replace (_buffer_pos self + (_pos self - _pos self))
    with (_buffer_pos self) by lia.
Qed.

Lemma seek_to_current_position_witness :
  reachable abcd one_byte_read
  /\ _closed one_byte_read = false
  /\ exists self' : t,
      seek abcd 0 SEEK_CUR one_byte_read = Ok (1, self')
      /\ fetch_calls self' = [0]
      /\ remaining self' = bs "bcd".
Proof.
  assert (Hr : reachable abcd one_byte_read).
  { apply (run_reachable abcd [Read1 1] (__init__ abcd));
      [constructor | reflexivity]. }
  split; [exact Hr|]. split; [reflexivity|].
  destruct (seek_to_current_position abcd one_byte_read Hr eq_refl)
    as (self' & E & _ & F & _ & _ & R).
  exists self'. split; [exact E|]. split; [exact F | exact R].
Defined.

(** ** VfsFile: a closed file stays closed *)

Lemma closed_step (fetch : Z -> list bytes) (o : op) (self self' : t) :
  _closed self = true ->
  step fetch o self = Ok self' ->
  o = Close /\ self' = self.
Proof.
  intros Hc H. apply step_cases in H. destruct o.
  - destruct H as [d H]. apply returning_read in H. destruct H; congruence.
  - destruct H as [d H]. apply returning_read1 in H. congruence.
  - destruct H as [r H]. apply returning_readinto1 in H.
    destruct H as [d H]. apply returning_read1 in H. congruence.
  - destruct H as [pos H]. apply seek_returns in H. destruct H; congruence.
  - destruct H; congruence.
  - split; [reflexivity|]. cbn in H. injection H as <-.
    destruct self; cbn in *; now subst.
Qed.

(** No call reopens a closed file: of the calls made on it only [close]
    returns, and it leaves the object exactly as it was (position, buffer
    and generator included); every other call raises. *)
Theorem closed_file_stays_closed (fetch : Z -> list bytes) (os : list op)
    (self self' : t) :
  _closed self = true ->
  run fetch os self = Ok self' ->
  self' = self /\ Forall (fun o => o = Close) os.
Proof.
  intros Hc. revert self'.
  induction os as [|o os IH]; intros self' H; cbn [run] in H.
  - injection H as <-. auto.
  - destruct (step fetch o self) as [s| |] eqn:E; try discriminate.
    cbn [bind] in H. destruct (closed_step fetch o self s Hc E) as [-> ->].
    destruct (IH self' H) as [-> Hall]. auto.
Qed.

Lemma closed_file_stays_closed_witness :
  _closed closed_at_one = true
  /\ run abcd [Close; Close] closed_at_one = Ok closed_at_one
  /\ Forall (fun o => o = Close) [Close; Close].
Proof.
  split; [reflexivity|]. split; [reflexivity|].
  exact (proj2 (closed_file_stays_closed abcd [Close; Close] closed_at_one
                  closed_at_one eq_refl eq_refl)).
Defined.

(** ** VfsFile: random access to one content *)

Lemma skipn_of_app {A : Type} (l1 l2 content : list A) (a : nat) :
  l1 ++ l2 = skipn a content ->
  l2 = skipn (a + List.length l1) content.
Proof.
  intros H. rewrite <- skipn_skipn_add, <- H.
  rewrite skipn_app, skipn_all, Nat.sub_diag. reflexivity.
Qed.

Lemma chunks_concat (fuel n : nat) :
  forall l : bytes,
    (List.length l <= fuel)%nat -> List.concat (chunks fuel n l) = l.
Proof.
  induction fuel as [|fuel IH]; intros l Hl.
  - destruct l; [reflexivity | cbn in Hl; lia].
  - destruct l as [|x l]; [reflexivity|].
    cbn [chunks List.concat]. rewrite IH.
    + apply firstn_skipn.
    + rewrite length_skipn. cbn [List.length] in *. lia.
Qed.

(** The sample source serves its content. *)
Lemma fetch_content_serves (content : bytes) :
  serves (fetch_content content) content.
Proof.
  intros offset Hoff. unfold fetch_content.
  rewrite chunks_concat by lia.
  unfold slice_index. destruct (Z.ltb_spec offset 0); [lia|].
  destruct (Z.min_spec offset (len content)) as [[Hlt ->]|[Hge ->]].
  - reflexivity.
  - unfold len in *. rewrite Nat2Z.id.
    rewrite skipn_all. symmetry. apply skipn_all2. lia.
Qed.

Lemma init_coherent (fetch : Z -> list bytes) (content : bytes) :
  serves fetch content -> coherent content (__init__ fetch).
Proof.
  intros H. unfold coherent, buffer_start_pos, __init__.
  cbn [_pos _buffer_pos _buffer _data app]. split; [lia|].
  now apply H.
Qed.

Lemma refilled_coherent (content : bytes) (self : t) :
  buffer_inv self -> coherent content self -> coherent content (refilled self).
Proof.
  intros Hb Hc. unfold refilled, _is_buffer_empty.
  destruct (Z.eqb_spec (_buffer_pos self) (len (_buffer self))) as [E|];
    [|exact Hc].
  unfold _load_buffer. destruct (_eof self); [exact Hc|].
  unfold coherent, buffer_start_pos in *. destruct Hc as [H0 Hc].
  apply skipn_of_app in Hc. unfold len in E.
  assert (En : Z.to_nat (_pos self - 0)
               = (Z.to_nat (_pos self - _buffer_pos self)
                  + List.length (_buffer self))%nat) by lia.
  destruct (_data self) as [|chunk rest];
    cbn [_pos _buffer_pos _buffer _data];
    (split; [lia|]); rewrite En, <- Hc; [reflexivity|].
  reflexivity.
Qed.

Lemma advance_coherent (content : bytes) (k : Z) (self : t) :
  coherent content self -> coherent content (advance k self).
Proof.
  unfold coherent, buffer_start_pos, advance.
  cbn [_pos _buffer_pos _buffer _data].
  replace (_pos self + k - (_buffer_pos self + k))
    with (_pos self - _buffer_pos self) by lia.
  auto.
Qed.

Lemma read_from_buffer_coherent (content : bytes) (size : Z)
    (self self' : t) (chunk : bytes) :
  buffer_inv self ->
  coherent content self ->
  _read_from_buffer size self = (chunk, self') ->
  coherent content self'.
Proof.
  intros Hb Hc E. rewrite read_from_buffer_eq in E by assumption.
  injection E as _ <-. apply advance_coherent.
  now apply refilled_coherent.
Qed.

Lemma read_loop_coherent (content : bytes) (fuel : nat) :
  forall (size : Z) (data data' : bytes) (self self' : t),
    buffer_inv self ->
    coherent content self ->
    read_loop fuel size data self = Ok (data', self') ->
    coherent content self'.
Proof.
  induction fuel as [|fuel IH]; intros size data data' self self' Hb Hc Hrun.
  all: cbn [read_loop] in Hrun.
  all: destruct (negb (_eof self) && ((size <? 0) || (len data <? size))).
  all: try discriminate.
  all: try (injection Hrun as _ <-; assumption).
  destruct (_read_from_buffer (size - len data) self) as [chunk self1] eqn:E.
  pose proof (read_from_buffer_spec _ _ _ _ Hb E) as (Hb1 & _).
  pose proof (read_from_buffer_coherent _ _ _ _ _ Hb Hc E) as Hc1.
  exact (IH _ _ _ _ _ Hb1 Hc1 Hrun).
Qed.

Lemma read1_coherent (content : bytes) (size : Z) (self self' : t)
    (data : bytes) :
  buffer_inv self ->
  coherent content self ->
  read1 size self = Ok (data, self') ->
  coherent content self'.
Proof.
  intros Hb Hc H.
  destruct (VfsFileSpec.read1_cases _ _ _ _ H) as (first & self1 & E1 & Hcases).
  pose proof (read_from_buffer_spec _ _ _ _ Hb E1) as (Hb1 & _).
  pose proof (read_from_buffer_coherent _ _ _ _ _ Hb Hc E1) as Hc1.
  destruct Hcases as [(_ & _ & more & E2 & _)|(_ & _ & ->)]; [|exact Hc1].
  exact (read_from_buffer_coherent _ _ _ _ _ Hb1 Hc1 E2).
Qed.

Lemma seek_coherent (fetch : Z -> list bytes) (content : bytes)
    (offset whence : Z) (self self' : t) (pos : Z) :
  serves fetch content ->
  coherent content self ->
  0 <= seek_target offset whence self ->
  seek fetch offset whence self = Ok (pos, self') ->
  coherent content self'.
Proof.
  intros Hs Hc Ht H. destruct (seek_returns fetch _ _ _ _ _ H) as [Hopen Hw].
  rewrite seek_supported in H by assumption. injection H as _ <-.
  destruct ((_pos self - _buffer_pos self
             <=? seek_target offset whence self)
            && (seek_target offset whence self
                <=? _pos self - _buffer_pos self + len (_buffer self))).
  - unfold coherent, buffer_start_pos, repositioned in *.
    cbn [_pos _buffer_pos _buffer _data].
    replace (seek_target offset whence self
             - (_buffer_pos self
                + (seek_target offset whence self - _pos self)))
      with (_pos self - _buffer_pos self) by lia.
    exact Hc.
  - unfold coherent, buffer_start_pos, refetched.
    cbn [_pos _buffer_pos _buffer _data app].
    rewrite Z.sub_0_r. split; [exact Ht | now apply Hs].
Qed.

(** With a source that serves one content, the object always holds, in its
    buffer and in the chunks to come, the content from the start of the
    buffer on: this holds of a new file and no call that returns breaks it,
    as long as no [seek] goes to a negative target. *)
Theorem calls_keep_content (fetch : Z -> list bytes) (content : bytes)
    (o : op) (self self' : t) :
  serves fetch content ->
  reachable fetch self ->
  coherent content self ->
  (forall offset whence : Z,
      o = Seek offset whence -> 0 <= seek_target offset whence self) ->
  step fetch o self = Ok self' ->
  coherent content (__init__ fetch) /\ coherent content self'.
Proof.
  intros Hs Hr Hc Ht H. split; [now apply init_coherent|].
  destruct (reachable_wf fetch self Hr) as [Hb _].
  apply step_cases in H. destruct o.
  - destruct H as [d H]. apply returning_read in H. destruct H as [_ H].
    exact (read_loop_coherent content _ _ _ _ _ _ Hb Hc H).
  - destruct H as [d H]. exact (read1_coherent content _ _ _ _ Hb Hc H).
  - destruct H as [r H]. apply returning_readinto1 in H. destruct H as [d H].
    exact (read1_coherent content _ _ _ _ Hb Hc H).
  - destruct H as [pos H].
    exact (seek_coherent fetch content _ _ _ _ _ Hs Hc (Ht _ _ eq_refl) H).
  - destruct H as [-> _]. exact Hc.
  - cbn in H. injection H as <-. exact Hc.
Qed.

Lemma calls_keep_content_witness :
  serves abcd (bs "abcd")
  /\ reachable abcd one_byte_read
  /\ coherent (bs "abcd") one_byte_read
  /\ step abcd (Seek 3 SEEK_SET) one_byte_read
     = Ok (state_after abcd [Read1 1; Seek 3 SEEK_SET])
  /\ coherent (bs "abcd") (state_after abcd [Read1 1; Seek 3 SEEK_SET]).
Proof.
  assert (Hr : reachable abcd one_byte_read).
  { apply (run_reachable abcd [Read1 1] (__init__ abcd));
      [constructor | reflexivity]. }
  assert (Hc : coherent (bs "abcd") one_byte_read)
    by (split; [vm_compute; discriminate | reflexivity]).
  split; [apply fetch_content_serves|]. split; [exact Hr|].
  split; [exact Hc|]. split; [reflexivity|].
  refine (proj2 (calls_keep_content abcd (bs "abcd") (Seek 3 SEEK_SET)
                   one_byte_read _ (fetch_content_serves _) Hr Hc _ eq_refl)).
  intros offset whence E. injection E as <- <-. vm_compute. discriminate.
Defined.

Lemma coherent_remaining (content : bytes) (self : t) :
  buffer_inv self ->
  coherent content self ->
  remaining self = skipn (Z.to_nat (_pos self)) content.
Proof.
  unfold buffer_inv, coherent, buffer_start_pos, remaining, len.
  intros Hb [H0 Hc].
  replace (Z.to_nat (_pos self))
    with (Z.to_nat (_pos self - _buffer_pos self)
          + Z.to_nat (_buffer_pos self))%nat by lia.
  rewrite <- skipn_skipn_add, <- Hc, skipn_app.
  replace (Z.to_nat (_buffer_pos self) - List.length (_buffer self))%nat
    with 0%nat by lia.
  reflexivity.
Qed.

(** Random access: with a source that serves one content, [seek(p)]
    followed by [read(n)], [p] not negative and [n] positive, returns
    [content[p:p+n]], whether the seek stayed inside the buffer or fetched
    anew, and whatever was read or sought before. *)
Theorem seek_then_read_is_content_slice (fetch : Z -> list bytes)
    (content : bytes) (p n : Z) (self : t) :
  serves fetch content ->
  reachable fetch self ->
  coherent content self ->
  _closed self = false ->
  0 <= p ->
  0 < n ->
  exists self1 self2 : t,
    seek fetch p SEEK_SET self = Ok (p, self1)
    /\ read n self1
       = Ok (firstn (Z.to_nat n) (skipn (Z.to_nat p) content), self2)
    /\ coherent content self2.
Proof.
  intros Hs Hr Hc Hopen Hp Hn. destruct (reachable_wf fetch self Hr) as [Hb _].
  pose proof (seek_supported fetch p SEEK_SET self Hopen (or_introl eq_refl))
    as E.
  cbv zeta in E. change (seek_target p SEEK_SET self) with p in E.
  set (self1 := if (_pos self - _buffer_pos self <=? p)
                   && (p <=? _pos self - _buffer_pos self + len (_buffer self))
                then repositioned p self else refetched fetch p self) in E.
  destruct (seek_wf fetch _ _ _ _ _ Hb E) as (Hwf1 & _ & Hp1 & Hopen1).
  pose proof (seek_coherent fetch content p SEEK_SET _ _ _ Hs Hc Hp E) as Hc1.
  destruct (read_positive n self1 Hwf1 Hopen1 Hn) as (self2 & E2 & _).
  exists self1, self2. split; [exact E|].
  rewrite (coherent_remaining content self1 (proj1 Hwf1) Hc1), Hp1 in E2.
  split; [exact E2|].
  destruct (returning_read _ _ _ _ E2) as [_ Hloop].
  exact (read_loop_coherent content _ _ _ _ _ _ (proj1 Hwf1) Hc1 Hloop).
Qed.

Lemma seek_then_read_is_content_slice_witness :
  serves abcd (bs "abcd")
  /\ reachable abcd read_to_the_end
  /\ coherent (bs "abcd") read_to_the_end
  /\ _closed read_to_the_end = false
  /\ exists self1 self2 : t,
      seek abcd 1 SEEK_SET read_to_the_end = Ok (1, self1)
      /\ read 2 self1
         = Ok (firstn (Z.to_nat 2) (skipn (Z.to_nat 1) (bs "abcd")), self2)
      /\ coherent (bs "abcd") self2.
Proof.
  assert (Hr : reachable abcd read_to_the_end).
  { apply (run_reachable abcd [Read (-1)] (__init__ abcd));
      [constructor | reflexivity]. }
  assert (Hc : coherent (bs "abcd") read_to_the_end)
    by (split; [vm_compute; discriminate | reflexivity]).
  split; [apply fetch_content_serves|]. split; [exact Hr|].
  split; [exact Hc|]. split; [reflexivity|].
  exact (seek_then_read_is_content_slice abcd (bs "abcd") 1 2 read_to_the_end
           (fetch_content_serves _) Hr Hc eq_refl ltac:(lia) ltac:(lia)).
Defined.

(** ** VfsFile: reading again what is still in the buffer *)

Lemma read_from_buffer_refill (size : Z) (self self' : t) (chunk : bytes) :
  buffer_inv self ->
  _is_buffer_empty self = true ->
  _eof self = false ->
  _read_from_buffer size self = (chunk, self') ->
  _buffer_pos self' = len chunk.
Proof.
  intros Hb Em Eof E. rewrite read_from_buffer_eq in E by assumption.
  pose proof (refilled_buffer_inv self Hb) as Hb1.
  assert (H0 : _buffer_pos (refilled self) = 0).
  { unfold refilled, _load_buffer. rewrite Em, Eof.
    now destruct (_data self). }
  unfold buffer_inv in Hb1. rewrite H0 in *.
  destruct (taken_bounds size (len (_buffer (refilled self)) - 0))
    as (Hk & _); [lia|].
  injection E as <- <-. cbn [_buffer_pos advance]. rewrite H0.
  rewrite len_firstn by lia. lia.
Qed.

Lemma read_from_buffer_exhausted (size : Z) (self self' : t) (chunk : bytes) :
  buffer_inv self ->
  _is_buffer_empty self = true ->
  _eof self = true ->
  _read_from_buffer size self = (chunk, self') ->
  chunk = []
  /\ _buffer self' = _buffer self
  /\ _buffer_pos self' = _buffer_pos self.
Proof.
  intros Hb Em Eof E. rewrite read_from_buffer_eq in E by assumption.
  assert (Hr : refilled self = self).
  { unfold refilled, _load_buffer. now rewrite Em, Eof. }
  rewrite Hr in E. unfold _is_buffer_empty in Em. apply Z.eqb_eq in Em.
  destruct (taken_bounds size (len (_buffer self) - _buffer_pos self))
    as (Hk & _); [lia|].
  assert (K : taken size (len (_buffer self) - _buffer_pos self) = 0) by lia.
  rewrite K in E. injection E as <- <-. cbn [_buffer _buffer_pos advance].
  repeat split. lia.
Qed.

(** When all the bytes [read1] returned lie before the cursor in the
    buffer, they are the bytes right before the cursor. *)
Lemma read1_data_in_buffer (size : Z) (self self1 : t) (data : bytes) :
  buffer_inv self ->
  read1 size self = Ok (data, self1) ->
  len data <= _buffer_pos self1 ->
  data = firstn (List.length data)
           (skipn (Z.to_nat (_buffer_pos self1 - len data)) (_buffer self1)).
Proof.
  intros Hb H Hle.
  destruct (VfsFileSpec.read1_cases _ _ _ _ H) as (first & s1 & E1 & Hcases).
  pose proof (read_from_buffer_spec _ _ _ _ Hb E1) as (Hb1 & _).
  destruct Hcases as [(Em & Hc & more & E2 & ->)|(_ & -> & ->)].
  - destruct (read_from_buffer_nonempty _ _ _ _ Hb Em E1) as (Hf & Hs1 & Hl).
    cbv zeta in Hf, Hs1, Hl.
    unfold _is_buffer_empty in Em. apply Z.eqb_neq in Em.
    unfold buffer_inv in Hb.
    destruct (taken_bounds size (len (_buffer self) - _buffer_pos self))
      as (Hk & Hmin & Hall); [lia|].
    assert (K : taken size (len (_buffer self) - _buffer_pos self)
                = len (_buffer self) - _buffer_pos self).
    { destruct Hc as [Hc|Hc]; [now apply Hall|].
      destruct (Z_lt_ge_dec size 0); [now apply Hall|].
      rewrite Hmin in * by lia. lia. }
    rewrite K in Hf, Hs1, Hl.
    assert (Em1 : _is_buffer_empty s1 = true).
    { subst s1. unfold _is_buffer_empty. cbn [_buffer_pos _buffer advance].
      apply Z.eqb_eq. lia. }
    destruct (_eof s1) eqn:Eof1.
    + destruct (read_from_buffer_exhausted _ _ _ _ Hb1 Em1 Eof1 E2)
        as (-> & Hbuf & Hbp).
      rewrite app_nil_r in *. rewrite Hbuf, Hbp. subst s1.
      cbn [_buffer _buffer_pos advance]. rewrite Hl.
      replace (_buffer_pos self + (len (_buffer self) - _buffer_pos self)
               - (len (_buffer self) - _buffer_pos self))
        with (_buffer_pos self) by lia.
      rewrite Hf at 1. f_equal. unfold len in *. lia.
    + pose proof (read_from_buffer_refill _ _ _ _ Hb1 Em1 Eof1 E2) as Hbp.
      rewrite len_app in Hle. lia.
  - rewrite read_from_buffer_eq in E1 by assumption.
    pose proof (refilled_buffer_inv self Hb) as Hbr. unfold buffer_inv in Hbr.
    destruct (taken_bounds size (len (_buffer (refilled self))
                                 - _buffer_pos (refilled self)))
      as (Hk & _); [lia|].
    injection E1 as Ef Es.
    assert (L : len first
                = taken size (len (_buffer (refilled self))
                              - _buffer_pos (refilled self))).
    { rewrite <- Ef. apply len_firstn. rewrite len_skipn by lia. lia. }
    rewrite <- Es. cbn [_buffer _buffer_pos advance]. rewrite L.
    replace (_buffer_pos (refilled self)
             + taken size (len (_buffer (refilled self))
                           - _buffer_pos (refilled self))
             - taken size (len (_buffer (refilled self))
                           - _buffer_pos (refilled self)))
      with (_buffer_pos (refilled self)) by lia.
    rewrite <- Ef at 1. f_equal. unfold len in *. lia.
Qed.

(** Bytes that [read1] has just returned and that are all still in the
    buffer can be read again without a new fetch: [seek(-len(data),
    SEEK_CUR)] stays inside the buffer and goes back to where the file
    was, and [read(len(data))] then returns the same bytes and ends at the
    same position. *)
Theorem reread_after_seeking_back (fetch : Z -> list bytes) (size : Z)
    (self self1 : t) (data : bytes) :
  reachable fetch self ->
  read1 size self = Ok (data, self1) ->
  0 < len data <= _buffer_pos self1 ->
  exists self2 self3 : t,
    seek fetch (- len data) SEEK_CUR self1 = Ok (_pos self1 - len data, self2)
    /\ _pos self1 - len data = _pos self
    /\ fetch_calls self2 = fetch_calls self
    /\ read (len data) self2 = Ok (data, self3)
    /\ fetch_calls self3 = fetch_calls self
    /\ _pos self3 = _pos self1.
Proof.
  intros Hr H Hk. destruct (reachable_wf fetch self Hr) as [Hb _].
  pose proof (returning_read1 _ _ _ _ H) as Hopen.
  destruct (read1_spec size self Hb Hopen)
    as (d & s & E & Hb1 & _ & _ & Hp1 & Hopen1 & Hf1 & _).
  rewrite E in H. injection H as -> ->.
  pose proof (read1_data_in_buffer size self self1 data Hb E (proj2 Hk))
    as Hdata.
  set (k := len data) in *.
  assert (Hin : in_buffer self1 (seek_target (- k) SEEK_CUR self1)).
  { unfold in_buffer, buffer_start_pos, seek_target, buffer_inv in *.
    cbn [Z.eqb SEEK_CUR SEEK_SET]. lia. }
  pose proof (seek_inside fetch (- k) SEEK_CUR self1 Hopen1
                (or_intror eq_refl) Hin) as Eseek.
  change (seek_target (- k) SEEK_CUR self1) with (_pos self1 - k) in *.
  set (self2 := repositioned (_pos self1 - k) self1) in *.
  pose proof (repositioned_wf (_pos self1 - k) self1 Hb1 Hin) as Hwf2.
  fold self2 in Hwf2.
  assert (Hopen2 : _closed self2 = false) by exact Hopen1.
  destruct (read_spec k self2 Hwf2 Hopen2)
    as (d & self3 & E3 & _ & _ & _ & _ & Hp3 & _ & Hf3 & _).
  destruct (read_positive k self2 Hwf2 Hopen2 (proj1 Hk)) as (s3 & E3' & _).
  assert (Hd : (d, self3) = (firstn (Z.to_nat k) (remaining self2), s3))
    by congruence.
  injection Hd as Hd _.
  assert (Hrem : firstn (Z.to_nat k) (remaining self2) = data).
  { unfold remaining, self2, repositioned. cbn [_buffer_pos _buffer _data].
    replace (_buffer_pos self1 + (_pos self1 - k - _pos self1))
      with (_buffer_pos self1 - k) by lia.
    unfold buffer_inv in Hb1.
    rewrite firstn_app.
    replace (Z.to_nat k
             - List.length
                 (skipn (Z.to_nat (_buffer_pos self1 - k)) (_buffer self1)))%nat
      with 0%nat
      by (rewrite length_skipn; unfold len in *; lia).
    cbn [firstn]. rewrite app_nil_r.
    etransitivity; [|symmetry; exact Hdata]. f_equal. unfold k, len. lia. }
  exists self2, self3.
  split; [exact Eseek|]. split; [lia|]. split; [exact Hf1|].
  split; [rewrite E3; f_equal; f_equal; congruence|].
  split; [cbn in Hf3; congruence|].
  rewrite Hp3. subst d. rewrite Hrem. cbn [_pos self2 repositioned]. fold k. lia.
Qed.

Lemma reread_after_seeking_back_witness :
  reachable abcd (__init__ abcd)
  /\ read1 2 (__init__ abcd) = Ok (bs "ab", first_chunk_read)
  /\ 0 < len (bs "ab") <= _buffer_pos first_chunk_read
  /\ exists self2 self3 : t,
      seek abcd (- len (bs "ab")) SEEK_CUR first_chunk_read
      = Ok (_pos first_chunk_read - len (bs "ab"), self2)
      /\ read (len (bs "ab")) self2 = Ok (bs "ab", self3)
      /\ fetch_calls self3 = [0].
Proof.
  assert (Hk : 0 < len (bs "ab") <= _buffer_pos first_chunk_read)
    by (vm_compute; split; [reflexivity | discriminate]).
  split; [constructor|]. split; [reflexivity|]. split; [exact Hk|].
  destruct (reread_after_seeking_back abcd 2 (__init__ abcd) first_chunk_read
              (bs "ab") (reachable_init abcd) eq_refl Hk)
    as (self2 & self3 & E1 & _ & _ & E2 & F & _).
  exists self2, self3. split; [exact E1|]. split; [exact E2 | exact F].
Defined.

(** ** VfsFile: who calls fetch *)








End VfsFileExtra.

(** ** VFS: ls, wget and open *)

Module VFSExtra.

Import VFS VFSFacts.

(** Children whose listing is empty and calls nobody add nothing. *)
Lemma ls_loop_no_descent (rec : string -> list call * result)
    (stat_entries : list StatEntry) :
  (forall p : string, rec p = ([], Ok [])) ->
  forall inner_entries : list StatEntry,
    ls_loop rec stat_entries inner_entries = ([], Ok inner_entries).
Proof.
  intros Hrec.
  induction stat_entries as [|entry rest IH]; intros inner_entries.
  - reflexivity.
  - cbn [ls_loop]. rewrite Hrec, IH. cbn [app]. now rewrite app_nil_r.
Qed.

(** [ls(path, 1)] of a directory returns the entries of its children as
    [ListFiles] gives them, and makes two calls to the API client, the
    [Get] and the [ListFiles] of [path]: no child is looked at, whatever it
    is. *)
Theorem ls_depth_one (c : Client) (path : string) (f : ApiFile)
    (stat_entries : list StatEntry) :
  File_Get c (get_vfs_path path) = Returns f ->
  is_directory f = true ->
  ListFiles f = Returns stat_entries ->
  ls_calls c path 1
  = ([CallGet (get_vfs_path path) None;
      CallListFiles (get_vfs_path path) None],
     Ok stat_entries).
Proof.
  intros Hget Hdir Hlist. unfold ls_calls.
  change (Z.to_nat 1) with 1%nat. cbn [ls_depth].
  rewrite Hget, Hdir. cbn [negb]. rewrite Hlist.
  rewrite ls_loop_no_descent by reflexivity. now rewrite !app_nil_r.
Qed.

Lemma ls_depth_one_witness :
  File_Get guarded_tree (get_vfs_path "/")
  = directory ["/a"; "/f"; "/b"]%string
  /\ ls_calls guarded_tree "/" 1
     = ([CallGet "fs/os/" None; CallListFiles "fs/os/" None],
        Ok (map stat ["/a"; "/f"; "/b"]%string)).
Proof.
  split; [reflexivity|].
  exact (ls_depth_one guarded_tree "/" _ _ eq_refl eq_refl eq_refl).
Defined.

(** [ls(path, max_depth)] with [max_depth >= 1] raises NotDirectoryError
    exactly when [path] itself is not a directory, and the error then names
    [path]: a plain file further down never makes the listing fail. *)
Theorem ls_not_directory_is_the_path (c : Client) (path : string)
    (max_depth : Z) (cid p : string) :
  1 <= max_depth ->
  ls c path max_depth = Raise (NotDirectoryError cid p)
  <-> cid = client_id c /\ p = path
      /\ exists f : ApiFile,
          File_Get c (get_vfs_path path) = Returns f
          /\ is_directory f = false.
Proof.
  intros Hd. unfold ls, ls_calls.
  replace (Z.to_nat max_depth) with (S (Z.to_nat (max_depth - 1))) by lia.
  cbn [ls_depth].
  destruct (File_Get c (get_vfs_path path)) as [f|e].
  2: { split; [discriminate|]. intros (_ & _ & f & H & _). discriminate. }
  destruct (is_directory f) eqn:Hdir; cbn [negb].
  - split; [|intros (_ & _ & f' & H & H'); congruence].
    destruct (ListFiles f) as [stat_entries|e]; [|discriminate].
    pose proof (ls_loop_result (ls_depth c (Z.to_nat (max_depth - 1)))
                  stat_entries []) as H.
    destruct (ls_loop (ls_depth c (Z.to_nat (max_depth - 1)))
                stat_entries []) as [calls r].
    cbn [snd] in *. destruct r as [r|[cid' p'|cid' e]];
      [discriminate | contradiction | discriminate].
  - cbn [snd]. split.
    + intros H. injection H as <- <-. repeat split. now exists f.
    + intros (-> & -> & _). reflexivity.
Qed.

Lemma ls_not_directory_is_the_path_witness :
  1 <= 2
  /\ ls tree "/f" 2 = Raise (NotDirectoryError "C.1" "/f")
  /\ ls tree "/" 2 <> Raise (NotDirectoryError "C.1" "/").
Proof.
  split; [lia|]. split.
  - apply (ls_not_directory_is_the_path tree "/f" 2 "C.1" "/f"); [lia|].
    repeat split. now eexists.
  - intros H.
    apply (ls_not_directory_is_the_path tree "/" 2 "C.1" "/") in H; [|lia].
    destruct H as (_ & _ & f & Hf & Hdir). vm_compute in Hf.
    injection Hf as <-. discriminate Hdir.
Defined.

(** When [ls] raises ApprovalMissingError, the walk stopped at the
    forbidden call: it is the last call made to the API client, every call
    before it returned, and the error carries the client id and what that
    call raised. *)
Theorem ls_stops_at_the_forbidden_call (c : Client) (path : string)
    (max_depth : Z) (cid e : string) :
  ls c path max_depth = Raise (ApprovalMissingError cid e) ->
  cid = client_id c
  /\ exists (calls : list call) (last : call),
      fst (ls_calls c path max_depth) = calls ++ [last]
      /\ forbidden last = Some e
      /\ Forall (fun call => forbidden call = None) calls.
Proof.
  intros H. pose proof (ls_depth_log c (Z.to_nat max_depth) path) as Hlog.
  unfold sound_log in Hlog. fold (ls_calls c path max_depth) in Hlog.
  unfold ls in H. rewrite H in Hlog.
  destruct Hlog as (Hcid & calls & last & Hcalls & Hall & Hlast).
  split; [exact Hcid|]. now exists calls, last.
Qed.

Lemma ls_stops_at_the_forbidden_call_witness :
  ls guarded_tree "/" 3 = Raise (ApprovalMissingError "C.1" "no approval")
  /\ exists (calls : list call) (last : call),
      fst (ls_calls guarded_tree "/" 3) = calls ++ [last]
      /\ forbidden last = Some "no approval"%string
      /\ Forall (fun call => forbidden call = None) calls.
Proof.
  split; [reflexivity|].
  exact (proj2 (ls_stops_at_the_forbidden_call guarded_tree "/" 3 "C.1"
                  "no approval" eq_refl)).
Defined.

(** A listing that returns made no forbidden call. *)
Theorem ls_returns_without_forbidden_calls (c : Client) (path : string)
    (max_depth : Z) (entries : list StatEntry) :
  ls c path max_depth = Ok entries ->
  Forall (fun call => forbidden call = None) (fst (ls_calls c path max_depth)).
Proof.
  intros H. pose proof (ls_depth_log c (Z.to_nat max_depth) path) as Hlog.
  unfold sound_log in Hlog. fold (ls_calls c path max_depth) in Hlog.
  unfold ls in H. now rewrite H in Hlog.
Qed.

Lemma ls_returns_without_forbidden_calls_witness :
  ls guarded_tree "/" 1 = Ok (map stat ["/a"; "/f"; "/b"]%string)
  /\ Forall (fun call => forbidden call = None)
       (fst (ls_calls guarded_tree "/" 1)).
Proof.
  split; [reflexivity|].
  exact (ls_returns_without_forbidden_calls guarded_tree "/" 1 _ eq_refl).
Defined.

(** *** Listing less deep *)

Lemma ls_loop_ok (rec : string -> list call * result)
    (stat_entries : list StatEntry) :
  Forall (fun entry =>
            forall cid e,
              snd (rec (pathspec_path entry))
              <> Raise (ApprovalMissingError cid e))
    stat_entries ->
  exists inner : list StatEntry, snd (ls_loop rec stat_entries []) = Ok inner.
Proof.
  intros Hall. pose proof (ls_loop_result rec stat_entries []) as H.
  destruct (snd (ls_loop rec stat_entries [])) as [r|[cid p|cid e]].
  - now exists r.
  - contradiction.
  - exfalso. apply Exists_exists in H. destruct H as (entry & Hin & E).
    rewrite Forall_forall in Hall. exact (Hall entry Hin cid e E).
Qed.

Lemma ls_depth_S (c : Client) (depth : nat) (path : string) :
  ls_depth c (S depth) path
  = let p := get_vfs_path path in
    match File_Get c p with
    | AccessForbiddenError e =>
        ([CallGet p (Some e)], Raise (ApprovalMissingError (client_id c) e))
    | Returns f =>
        if negb (is_directory f) then
          ([CallGet p None], Raise (NotDirectoryError (client_id c) path))
        else
          match ListFiles f with
          | AccessForbiddenError e =>
              ([CallGet p None; CallListFiles p (Some e)],
               Raise (ApprovalMissingError (client_id c) e))
          | Returns stat_entries =>
              let '(calls, r) := ls_loop (ls_depth c depth) stat_entries [] in
              ([CallGet p None; CallListFiles p None] ++ calls,
               match r with
               | Ok inner_entries => Ok (stat_entries ++ inner_entries)
               | Raise e => Raise e
               end)
          end
    end.
Proof. reflexivity. Qed.

(** One level less: a listing never raises ApprovalMissingError where the
    listing one level deeper does not. *)
Lemma ls_depth_pred (c : Client) (depth : nat) :
  forall path : string,
    (forall cid e,
        snd (ls_depth c (S depth) path) <> Raise (ApprovalMissingError cid e)) ->
    forall cid e,
      snd (ls_depth c depth path) <> Raise (ApprovalMissingError cid e).
Proof.
  induction depth as [|depth IH]; intros path H cid e; [discriminate|].
  rewrite ls_depth_S in H. rewrite ls_depth_S. cbv zeta in *.
  destruct (File_Get c (get_vfs_path path)) as [f|e0];
    [|exfalso; exact (H _ _ eq_refl)].
  destruct (is_directory f); cbn [negb] in *; [|discriminate].
  destruct (ListFiles f) as [stat_entries|e0];
    [|exfalso; exact (H _ _ eq_refl)].
  assert (Hdeep : Forall (fun entry =>
                     forall cid e,
                       snd (ls_depth c (S depth) (pathspec_path entry))
                       <> Raise (ApprovalMissingError cid e))
                    stat_entries).
  { pose proof (ls_loop_result (ls_depth c (S depth)) stat_entries []) as Hr.
    destruct (ls_loop (ls_depth c (S depth)) stat_entries []) as [calls r].
    cbn [snd] in *. destruct r as [r|[cid' p'|cid' e']].
    - now destruct Hr.
    - contradiction.
    - exfalso. exact (H _ _ eq_refl). }
  assert (Hshallow : Forall (fun entry =>
                        forall cid e,
                          snd (ls_depth c depth (pathspec_path entry))
                          <> Raise (ApprovalMissingError cid e))
                       stat_entries).
  { rewrite Forall_forall in *. intros entry Hin.
    exact (IH _ (Hdeep entry Hin)). }
  destruct (ls_loop_ok (ls_depth c depth) stat_entries Hshallow) as [inner E].
  destruct (ls_loop (ls_depth c depth) stat_entries []) as [calls r].
  cbn [snd] in *. rewrite E. discriminate.
Qed.

Lemma ls_depth_le (c : Client) (m n : nat) :
  (m <= n)%nat ->
  forall path : string,
    (forall cid e,
        snd (ls_depth c n path) <> Raise (ApprovalMissingError cid e)) ->
    forall cid e,
      snd (ls_depth c m path) <> Raise (ApprovalMissingError cid e).
Proof.
  induction 1 as [|n Hle IH]; intros path H; [exact H|].
  apply IH. now apply ls_depth_pred.
Qed.

(** Where [ls(path, n)] returns, so does [ls(path, m)] for every
    [m <= n]: listing less deep never runs into a forbidden call or a
    plain file that the deeper listing did not meet. *)
Theorem ls_shallower_returns (c : Client) (path : string) (m n : Z)
    (entries : list StatEntry) :
  m <= n ->
  ls c path n = Ok entries ->
  exists entries' : list StatEntry, ls c path m = Ok entries'.
Proof.
  intros Hmn Hn. destruct (Z_lt_ge_dec m 1) as [Hm|Hm].
  { exists []. unfold ls. now rewrite ls_below_one. }
  assert (Hno : forall cid e,
             ls c path m <> Raise (ApprovalMissingError cid e)).
  { unfold ls, ls_calls.
    apply (ls_depth_le c (Z.to_nat m) (Z.to_nat n)); [lia|].
    intros cid e. unfold ls, ls_calls in Hn. rewrite Hn. discriminate. }
  destruct (ls c path m) as [r|[cid p|cid e]] eqn:E.
  - now exists r.
  - exfalso. apply ls_not_directory_is_the_path in E; [|lia].
    destruct E as (_ & _ & f & Hf & Hdir).
    assert (En : ls c path n = Raise (NotDirectoryError (client_id c) path)).
    { apply ls_not_directory_is_the_path; [lia|]. repeat split.
      now exists f. }
    congruence.
  - exfalso. exact (Hno cid e eq_refl).
Qed.

Lemma ls_shallower_returns_witness :
  1 <= 2
  /\ ls tree "/" 2 = Ok (map stat ["/a"; "/f"; "/b"; "/a/x"; "/b/y"]%string)
  /\ exists entries' : list StatEntry, ls tree "/" 1 = Ok entries'.
Proof.
  split; [lia|]. split; [reflexivity|].
  exact (ls_shallower_returns tree "/" 1 2 _ ltac:(lia) eq_refl).
Defined.

(** *** wget *)

Lemma wget_some (url : string) (c : Client) (path : string) :
  url <> ""%string ->
  wget_calls (Some url) c path = wget_with_url url c path.
Proof.
  intros H. unfold wget_calls.
  destruct (String.eqb_spec url ""); [contradiction | reflexivity].
Qed.

(** With the Admin UI URL set, [wget(path)] and [ls(path, max_depth)],
    [max_depth >= 1], look at [path] the same way.  If its [Get()] is
    forbidden both raise the same ApprovalMissingError; if it is a
    directory [wget] raises ValueError and [ls] does not raise
    NotDirectoryError; if it is not a directory [ls] raises
    NotDirectoryError and [wget] returns the link
    [<url>/api/clients/<client id>/vfs-blob/fs/os<path>]. *)
Theorem wget_and_ls_agree (url : string) (c : Client) (path : string)
    (max_depth : Z) :
  url <> ""%string ->
  1 <= max_depth ->
  match File_Get c (get_vfs_path path) with
  | AccessForbiddenError e =>
      wget (Some url) c path
      = Failed (VfsError (ApprovalMissingError (client_id c) e))
      /\ ls c path max_depth = Raise (ApprovalMissingError (client_id c) e)
  | Returns f =>
      if is_directory f then
        wget (Some url) c path
        = Failed (ValueError ("`" ++ path ++ "` is a directory")%string)
        /\ forall cid p, ls c path max_depth <> Raise (NotDirectoryError cid p)
      else
        wget (Some url) c path
        = Returned (url ++ "/api/clients/" ++ client_id c
                    ++ "/vfs-blob/" ++ "fs/os" ++ path)%string
        /\ ls c path max_depth = Raise (NotDirectoryError (client_id c) path)
  end.
Proof.
  intros Hurl Hd. unfold wget. rewrite wget_some by assumption.
  unfold wget_with_url.
  destruct (File_Get c (get_vfs_path path)) as [f|e] eqn:Hget.
  - destruct (is_directory f) eqn:Hdir; cbn [snd].
    + split; [reflexivity|]. intros cid p H.
      apply ls_not_directory_is_the_path in H; [|assumption].
      destruct H as (_ & _ & f' & Hf & Hdir'). congruence.
    + split; [reflexivity|].
      apply ls_not_directory_is_the_path; [assumption|].
      repeat split. now exists f.
  - cbn [snd]. split; [reflexivity|]. unfold ls, ls_calls.
    replace (Z.to_nat max_depth) with (S (Z.to_nat (max_depth - 1))) by lia.
    cbn [ls_depth]. now rewrite Hget.
Qed.

Lemma wget_and_ls_agree_witness :
  "http://ui"%string <> ""%string
  /\ 1 <= 2
  /\ wget (Some "http://ui"%string) tree "/f"
     = Returned "http://ui/api/clients/C.1/vfs-blob/fs/os/f"%string
  /\ ls tree "/f" 2 = Raise (NotDirectoryError "C.1" "/f").
Proof.
  split; [discriminate|]. split; [lia|].
  exact (wget_and_ls_agree "http://ui" tree "/f" 2 ltac:(discriminate)
           ltac:(lia)).
Defined.

Lemma append_same_prefix (s a b : string) :
  (s ++ a)%string = (s ++ b)%string -> a = b.
Proof.
  induction s as [|ch s IH]; cbn; intros H; [exact H|].
  injection H as H. now apply IH.
Qed.

(** With one URL and one client, two paths for which [wget] returns the
    same link are the same path. *)
Theorem wget_links_differ (url : string) (c : Client)
    (path1 path2 link : string) :
  wget (Some url) c path1 = Returned link ->
  wget (Some url) c path2 = Returned link ->
  path1 = path2.
Proof.
  unfold wget, wget_calls.
  destruct (String.eqb_spec url ""); [discriminate|].
  unfold wget_with_url, link_format, get_vfs_path.
  destruct (File_Get c ("fs/os" ++ path1)) as [f1|e1]; [|discriminate].
  destruct (is_directory f1); [discriminate|].
  destruct (File_Get c ("fs/os" ++ path2)) as [f2|e2]; [|discriminate].
  destruct (is_directory f2); [discriminate|].
  cbn [snd]. intros H1 H2. rewrite <- H2 in H1. injection H1 as H.
  apply append_same_prefix in H. cbn in H. repeat injection H as H.
  apply append_same_prefix in H. repeat injection H as H. exact H.
Qed.

Lemma wget_links_differ_witness :
  wget (Some "http://ui"%string) tree "/f"
  = Returned "http://ui/api/clients/C.1/vfs-blob/fs/os/f"%string
  /\ forall path : string,
      wget (Some "http://ui"%string) tree path
      = Returned "http://ui/api/clients/C.1/vfs-blob/fs/os/f"%string ->
      path = "/f"%string.
Proof.
  split; [reflexivity|]. intros path H.
  exact (wget_links_differ "http://ui" tree path "/f" _ H eq_refl).
Defined.

(** *** open *)

(** [open(path)] with access granted returns a new file over the blob of
    [fs/os<path>]: it has asked for the blob at offset 0 and nothing more,
    and [read(n)], [n] positive, returns the first [n] bytes of the chunks
    served from offset 0. *)
Theorem open_then_read (c : BlobClient) (path : string) (n : Z) :
  VerifyAccess c = Returns tt ->
  0 < n ->
  exists f : VfsFile.t,
    open c path = Returned f
    /\ VfsFile.fetch_calls f = [0]
    /\ VfsFile.next_calls f = 0%nat
    /\ VfsFile.returned (VfsFile.read n f)
       = Some (firstn (Z.to_nat n)
                 (List.concat (GetBlobWithOffset c ("fs/os" ++ path) 0))).
Proof.
  intros Hacc Hn. unfold open. rewrite Hacc.
  exists (VfsFile.__init__ (GetBlobWithOffset c (get_vfs_path path))).
  split; [reflexivity|]. split; [reflexivity|]. split; [reflexivity|].
  destruct (VfsFileFacts.read_positive n
              (VfsFile.__init__ (GetBlobWithOffset c (get_vfs_path path)))
              (VfsFileFacts.init_wf _) eq_refl Hn) as (s & E & _).
  rewrite E. reflexivity.
Qed.

Lemma open_then_read_witness :
  VerifyAccess abcd_client = Returns tt
  /\ 0 < 3
  /\ exists f : VfsFile.t,
      open abcd_client "/f" = Returned f
      /\ VfsFile.fetch_calls f = [0]
      /\ VfsFile.next_calls f = 0%nat
      /\ VfsFile.returned (VfsFile.read 3 f)
         = Some (firstn (Z.to_nat 3)
                   (List.concat
                      (GetBlobWithOffset abcd_client ("fs/os" ++ "/f") 0))).
Proof.
  split; [reflexivity|]. split; [lia|].
  exact (open_then_read abcd_client "/f" 3 eq_refl ltac:(lia)).
Defined.

End VFSExtra.
